(** * A shallow embedding of the arena allocator (arena.go)

    The allocator hands out byte ranges of fixed-size chunks by bumping an
    integer cursor; when the cursor passes the end of the active chunk the
    locked slow path [resize] rolls over to the next chunk.  The embedding
    is sequential: one thread runs [alloc], [resize] and [Reset] to
    completion, so the mutex is not modelled and every compare-and-swap is
    evaluated against the state the same thread has just written.

    Go's [int] and [int64] are 64-bit two's complement integers: they are
    modelled as [Z] with the wrap-around of every addition, subtraction and
    multiplication written out with [wrap64].  Byte buffers live in a heap
    of blocks; a pointer is a block and a byte offset, so that two views of
    the same bytes are recognised as such. *)

From Stdlib Require Import ZArith Lia.
From stdpp Require Import base numbers list.

Local Open Scope Z_scope.

(** ** Machine integers *)

Definition int64_min : Z := - 2 ^ 63.
Definition int64_max : Z := 2 ^ 63 - 1.

Definition in_int64 (z : Z) : Prop := int64_min <= z <= int64_max.

Definition wrap64 (z : Z) : Z := (z + 2 ^ 63) mod 2 ^ 64 - 2 ^ 63.

(** ** Panics

    The two [panic(fmt.Sprintf(...))] calls of [resize], the one of [Reset],
    and the panics of the Go runtime itself (index or slice bounds out of
    range, [makeslice: len out of range], nil dereference).  [MemoryFault]
    stands for an access through an [unsafe] view that leaves the block it
    points into, which Go does not check. *)

Inductive fault : Type :=
  | ObjectTooLarge
  | CapacityExceeded
  | ResetMisuse
  | RuntimeError
  | MemoryFault.

Inductive outcome (A : Type) : Type :=
  | Ok (x : A)
  | Panic (e : fault).
Arguments Ok {A} x.
Arguments Panic {A} e.

(** ** Memory *)

Abbreviation byte := Byte.byte (only parsing).
Definition zero_byte : byte := Byte.x00.

(** A block is named by its index in the heap. *)
Abbreviation block := nat (only parsing).
Abbreviation mem := (list (list Byte.byte)) (only parsing).

Inductive ptr : Type :=
  | Null
  | Ptr (b : block) (off : Z).

(** [cap(buf)] of a byte slice that spans a whole block. *)
Definition cap_of (m : mem) (b : block) : Z :=
  match m !! b with
  | Some bs => Z.of_nat (length bs)
  | None => 0
  end.

(** Reading [n] bytes at [p]; [None] when the range leaves its block. *)
Definition load (m : mem) (p : ptr) (n : Z) : option (list byte) :=
  if n =? 0 then Some []
  else match p with
       | Null => None
       | Ptr b off =>
           match m !! b with
           | Some bs =>
               if (0 <=? off) && (0 <=? n) && (off + n <=? Z.of_nat (length bs))
               then Some (take (Z.to_nat n) (drop (Z.to_nat off) bs))
               else None
           | None => None
           end
       end.

(** Writing the bytes [bs] at [p]. *)
Definition store (m : mem) (p : ptr) (bs : list byte) : option mem :=
  match bs with
  | [] => Some m
  | _ =>
      match p with
      | Null => None
      | Ptr b off =>
          match m !! b with
          | Some old =>
              if (0 <=? off) && (off + Z.of_nat (length bs) <=? Z.of_nat (length old))
              then Some (<[b := list_inserts (Z.to_nat off) bs old]> m)
              else None
          | None => None
          end
      end
  end.

(** ** The arena *)

Record Arena : Type := mkArena {
  chunkSize : Z;
  limit : Z;
  cursor : Z;
  chunkCursor : Z;
  current : block;
  chunks : list block
}.

Definition set_limit (v : Z) (a : Arena) : Arena :=
  mkArena (chunkSize a) v (cursor a) (chunkCursor a) (current a) (chunks a).
Definition set_cursor (v : Z) (a : Arena) : Arena :=
  mkArena (chunkSize a) (limit a) v (chunkCursor a) (current a) (chunks a).
Definition set_chunkCursor (v : Z) (a : Arena) : Arena :=
  mkArena (chunkSize a) (limit a) (cursor a) v (current a) (chunks a).
Definition set_current (b : block) (a : Arena) : Arena :=
  mkArena (chunkSize a) (limit a) (cursor a) (chunkCursor a) b (chunks a).
Definition set_chunks (l : list block) (a : Arena) : Arena :=
  mkArena (chunkSize a) (limit a) (cursor a) (chunkCursor a) (current a) l.

(** ** Computations

    A method of [*Arena] reads and writes the arena and the heap, and either
    returns, panics (the state it leaves behind is kept: a panic can be
    recovered), or is still running when the fuel is used up ([None]). *)

Definition M (A : Type) : Type :=
  Arena -> mem -> option (outcome A * Arena * mem).

Definition ret {A} (x : A) : M A := fun a m => Some (Ok x, a, m).
Definition panic {A} (e : fault) : M A := fun a m => Some (Panic e, a, m).
Definition diverge {A} : M A := fun _ _ => None.

Definition bind {A B} (c : M A) (k : A -> M B) : M B := fun a m =>
  match c a m with
  | Some (Ok x, a', m') => k x a' m'
  | Some (Panic e, a', m') => Some (Panic e, a', m')
  | None => None
  end.

Notation "'let*' x := c 'in' k" := (bind c (fun x => k))
  (at level 10, x name, c at level 100, k at level 200).

Definition get : M Arena := fun a m => Some (Ok a, a, m).
Definition modify (f : Arena -> Arena) : M unit := fun a m => Some (Ok tt, f a, m).
Definition get_mem : M mem := fun a m => Some (Ok m, a, m).
Definition put_mem (m' : mem) : M unit := fun a _ => Some (Ok tt, a, m').

(** [make([]byte, len)]: a fresh zeroed block. *)
Definition make_bytes (len : Z) : M block := fun a m =>
  if len <? 0 then Some (Panic RuntimeError, a, m)
  else Some (Ok (length m), a, m ++ [replicate (Z.to_nat len) zero_byte]).

(** [&buf[lo:hi][0]] for a byte slice [buf] spanning block [b]: the slice
    expression checks [0 <= lo <= hi <= cap(buf)], the index expression that
    the resulting slice is not empty. *)
Definition slice_addr (b : block) (lo hi : Z) : M ptr := fun a m =>
  if (0 <=? lo) && (lo <=? hi) && (hi <=? cap_of m b) then
    if 0 <? hi - lo then Some (Ok (Ptr b lo), a, m)
    else Some (Panic RuntimeError, a, m)
  else Some (Panic RuntimeError, a, m).

(** [a.chunks[i]] *)
Definition index_chunk (i : Z) : M block := fun a m =>
  if 0 <=? i then
    match chunks a !! Z.to_nat i with
    | Some b => Some (Ok b, a, m)
    | None => Some (Panic RuntimeError, a, m)
    end
  else Some (Panic RuntimeError, a, m).

(** The guard of line 169: the chunk index trails the end of the list. *)
Definition trails_end (a : Arena) : bool :=
  chunkCursor a <? Z.of_nat (length (chunks a)) - 1.

(** Lines 169-174 of [resize]: the choice of the next active chunk. *)
Definition select_chunk : M unit :=
  let* a := get in
  if trails_end a then
    let* b := index_chunk (chunkCursor a) in
    modify (set_current b)
  else if Z.of_nat (length (chunks a)) <? limit a then
    let* b := make_bytes (chunkSize a) in
    modify (fun a' => set_chunks (chunks a' ++ [b]) (set_current b a'))
  else ret tt.

(** Lines 169-180 of [resize]: what the thread whose swap succeeded does. *)
Definition rollover (n : Z) : M ptr :=
  let* _ := select_chunk in
  let* _ := modify (fun a' => set_chunkCursor (wrap64 (chunkCursor a' + 1)) a') in
  let* a' := get in
  let next := n in
  if next >? chunkSize a' then panic ObjectTooLarge
  else slice_addr (current a') (wrap64 (next - n)) next.

(** [resize], lines 159-181.  [retry] is the call [a.alloc(n)] made when the
    compare-and-swap fails. *)
Definition resize (retry : M ptr) (n next : Z) : M ptr :=
  let* a := get in
  if negb (limit a =? 0) && (chunkCursor a >=? limit a) then
    panic CapacityExceeded
  else if negb (cursor a =? next) then retry
  else
    let* _ := modify (set_cursor n) in
    rollover n.

(** [alloc], lines 151-157. *)
Fixpoint alloc (fuel : nat) (n : Z) : M ptr :=
  match fuel with
  | O => diverge
  | S fuel' =>
      let* a := get in
      let next := wrap64 (cursor a + n) in
      let* _ := modify (set_cursor next) in
      if next <? chunkSize a then
        slice_addr (current a) (wrap64 (next - n)) next
      else resize (alloc fuel' n) n next
  end.

(** [Reset], lines 190-206. *)
Definition zero_chunk (m : mem) (b : block) : mem :=
  match m !! b with
  | Some bs => <[b := replicate (length bs) zero_byte]> m
  | None => m
  end.

Definition Reset : M unit :=
  let* a := get in
  let before := cursor a in
  let* m := get_mem in
  let* _ := put_mem (foldl zero_chunk m (chunks a)) in
  let* b := index_chunk 0 in
  let* _ := modify (set_current b) in
  let* _ := modify (set_chunks [b]) in
  let* _ := modify (set_chunkCursor 0) in
  let* a' := get in
  if cursor a' =? before then modify (set_cursor 0)
  else panic ResetMisuse.

(** [Option], [WithLimit] and [Create], lines 121-149. *)
Definition Option : Type := Arena -> Arena.

Definition WithLimit (l : Z) : Option := set_limit l.

Definition Create (size : Z) (options : list Option) (m : mem)
  : outcome Arena * mem :=
  if size <? 0 then (Panic RuntimeError, m)
  else
    let cur := length m in
    let a := mkArena size 0 0 0 cur [cur] in
    (Ok (foldl (fun a' o => o a') a options),
     m ++ [replicate (Z.to_nat size) zero_byte]).

(** ** The typed view layer

    A type parameter [T] enters the code only through [unsafe.Sizeof(t)]:
    the section variable [sz].  A value of [T] is the [sz] bytes that
    represent it, element [i] of a slice the bytes at offset [i * sz] of its
    backing store. *)

Record slice : Type := mkSlice {
  sdata : ptr;
  slen : Z;
  scap : Z
}.

Record gostring : Type := mkString {
  strdata : ptr;
  strlen : Z
}.

Definition ptr_add (p : ptr) (d : Z) : ptr :=
  match p with
  | Null => Null
  | Ptr b off => Ptr b (off + d)
  end.

(** The bytes moved by [copy] and by an assignment through a pointer: the
    source is read before the destination is written. *)
Definition memmove (dst src : ptr) (n : Z) : M unit := fun a m =>
  match load m src n with
  | Some bs =>
      match store m dst bs with
      | Some m' => Some (Ok tt, a, m')
      | None => Some (Panic MemoryFault, a, m)
      end
  | None => Some (Panic MemoryFault, a, m)
  end.

Definition write (dst : ptr) (bs : list byte) : M unit := fun a m =>
  match store m dst bs with
  | Some m' => Some (Ok tt, a, m')
  | None => Some (Panic MemoryFault, a, m)
  end.

(** [unsafe.Slice(p, len)] for elements of [esz] bytes.  The runtime
    refuses a negative length, a byte size [esz * len] that overflows a
    [uintptr], and a nil pointer with a length that is not zero.  Its last
    check, that the bytes end below the top of the address space, has no
    counterpart for a pointer that is a block and an offset; it cannot fail
    for bytes that lie inside a block. *)
Definition unsafe_Slice (esz : Z) (p : ptr) (len : Z) : M slice :=
  if len <? 0 then panic RuntimeError
  else if 2 ^ 64 <=? esz * len then panic RuntimeError
  else match p with
       | Null => if 0 <? len then panic RuntimeError else ret (mkSlice p len len)
       | Ptr _ _ => ret (mkSlice p len len)
       end.

(** The loop of [growSlice], lines 101-103. *)
Fixpoint grow_capacity (fuel : nat) (newLen capacity : Z) : option Z :=
  match fuel with
  | O => None
  | S fuel' =>
      if newLen >=? capacity then grow_capacity fuel' newLen (wrap64 (capacity * 2))
      else Some capacity
  end.

Section Typed.

Variable sz : Z.


(** [Value], lines 56-61. *)
Definition Value (fuel : nat) (value : list byte) : M ptr :=
  let* out := alloc fuel sz in
  let* _ := write out value in
  ret out.

(** [Make], lines 71-75. *)
Definition Make (fuel : nat) (size cap : Z) : M slice :=
  let* p := alloc fuel (wrap64 (sz * cap)) in
  let* out := unsafe_Slice sz p cap in
  if (0 <=? size) && (size <=? scap out) then ret (mkSlice (sdata out) size (scap out))
  else panic RuntimeError.

(** The built-in [append(slice, elements...)] as line 91 calls it, with
    [cap(slice) >= len(slice)+len(elements)] in machine arithmetic: the
    runtime grows the slice only when the new length exceeds the
    capacity as an unsigned number, which under that guard means that the
    sum has wrapped to a negative number, and growing then panics. *)
Definition builtin_append (s elements : slice) : M slice :=
  let newLen := wrap64 (slen s + slen elements) in
  if newLen <? 0 then panic RuntimeError
  else
    let* _ := memmove (ptr_add (sdata s) (slen s * sz)) (sdata elements)
                      (slen elements * sz) in
    ret (mkSlice (sdata s) newLen (scap s)).

(** [growSlice], lines 97-108. *)
Definition growSlice (fuel : nat) (s elements : slice) : M slice :=
  let newLen := wrap64 (slen s + slen elements) in
  match grow_capacity fuel newLen (scap s) with
  | None => diverge
  | Some capacity =>
      let* p := alloc fuel (wrap64 (sz * capacity)) in
      let* out := unsafe_Slice sz p capacity in
      let* _ := memmove (sdata out) (sdata s) (Z.min (slen out) (slen s) * sz) in
      if (0 <=? slen s) && (slen s <=? scap out) then
        let* _ := memmove (ptr_add (sdata out) (slen s * sz)) (sdata elements)
                          (Z.min (slen out - slen s) (slen elements) * sz) in
        if (0 <=? newLen) && (newLen <=? scap out) then
          ret (mkSlice (sdata out) newLen (scap out))
        else panic RuntimeError
      else panic RuntimeError
  end.

(** [Append], lines 89-95. *)
Definition Append (fuel : nat) (s elements : slice) : M slice :=
  if scap s >=? wrap64 (slen s + slen elements) then builtin_append s elements
  else growSlice fuel s elements.

End Typed.

(** [String], lines 115-119.  [unsafe.String] makes the checks of
    [unsafe.Slice] on the same pointer and length, which have passed by
    then. *)
Definition String (fuel : nat) (value : gostring) : M gostring :=
  let* arenaData := alloc fuel (strlen value) in
  let* dst := unsafe_Slice 1 arenaData (strlen value) in
  let* _ := memmove (sdata dst) (strdata value) (Z.min (slen dst) (strlen value)) in
  ret (mkString arenaData (strlen value)).

(** * Invariants and transitions *)

(** The three ways lines 169-174 leave the arena: the reuse of a trailing
    slot, a freshly provisioned chunk, or nothing at all. *)
Inductive chunk_step (a : Arena) (m : mem) : Arena -> mem -> Prop :=
  | cs_reuse b :
      0 <= chunkCursor a < Z.of_nat (length (chunks a)) - 1 ->
      chunks a !! Z.to_nat (chunkCursor a) = Some b ->
      chunk_step a m (set_current b a) m
  | cs_append :
      Z.of_nat (length (chunks a)) - 1 <= chunkCursor a ->
      Z.of_nat (length (chunks a)) < limit a ->
      0 <= chunkSize a ->
      chunk_step a m
        (set_chunks (chunks a ++ [length m]) (set_current (length m) a))
        (m ++ [replicate (Z.to_nat (chunkSize a)) zero_byte])
  | cs_keep :
      Z.of_nat (length (chunks a)) - 1 <= chunkCursor a ->
      limit a <= Z.of_nat (length (chunks a)) ->
      chunk_step a m a m.

(** A chunk of the arena is a block of exactly [chunkSize] bytes. *)
Definition chunk_ok (C : Z) (m : mem) (b : block) : Prop :=
  exists bs, m !! b = Some bs /\ Z.of_nat (length bs) = C.

(** What every arena built by [Create] keeps true, whatever is allocated
    from it: [c0] is the chunk [Create] made. *)
Record wf (c0 : block) (a : Arena) (m : mem) : Prop := mkWf {
  wf_size : 0 <= chunkSize a <= int64_max;
  wf_first : head (chunks a) = Some c0;
  wf_current : current a ∈ chunks a;
  wf_blocks : Forall (chunk_ok (chunkSize a) m) (chunks a);
  wf_cursor : in_int64 (cursor a)
}.

(** The position of the chunk index in the chunk list after [k] operations. *)
Record index_inv (k : nat) (a : Arena) : Prop := mkIndexInv {
  ii_nonneg : 0 <= chunkCursor a;
  ii_steps : chunkCursor a <= Z.of_nat k;
  ii_index : Z.of_nat (length (chunks a)) - 1 <= chunkCursor a;
  ii_last : last (chunks a) = Some (current a);
  ii_unlimited : limit a <= 0 -> length (chunks a) = 1%nat;
  ii_limited :
    0 < limit a ->
    chunkCursor a <= limit a
    /\ Z.of_nat (length (chunks a)) = Z.min (chunkCursor a + 1) (limit a)
}.

(** One operation on the arena: an allocation of any size, a [Reset], or a
    write of the caller into memory (into an object it was given, or
    anywhere else); and [k] of them in a row. *)
Inductive step : Arena -> mem -> Arena -> mem -> Prop :=
  | step_alloc f n o a m a' m' :
      in_int64 n ->
      alloc f n a m = Some (o, a', m') ->
      step a m a' m'
  | step_reset o a m a' m' :
      Reset a m = Some (o, a', m') ->
      step a m a' m'
  | step_write p bs a m m' :
      store m p bs = Some m' ->
      step a m a m'.

Inductive steps : nat -> Arena -> mem -> Arena -> mem -> Prop :=
  | steps_O a m : steps 0 a m a m
  | steps_S k a m a1 m1 a2 m2 :
      steps k a m a1 m1 ->
      step a1 m1 a2 m2 ->
      steps (S k) a m a2 m2.

(** The limit left by a list of [WithLimit] options: the last one wins. *)
Definition final_limit (ls : list Z) : Z := foldl (fun _ l => l) 0 ls.

(** A run of successive allocations, as a caller makes them. *)
Fixpoint alloc_many (fuel : nat) (ns : list Z) : M (list ptr) :=
  match ns with
  | [] => ret []
  | n :: ns' =>
      let* p := alloc fuel n in
      let* ps := alloc_many fuel ns' in
      ret (p :: ps)
  end.


Fixpoint offsets (c : Z) (ns : list Z) : list Z :=
  match ns with
  | [] => []
  | n :: ns' => c :: offsets (c + n) ns'
  end.

(** Two byte ranges that share no byte. *)
Definition disjoint_range (p : ptr) (n : Z) (q : ptr) (k : Z) : Prop :=
  match p, q with
  | Ptr b1 o1, Ptr b2 o2 => b1 <> b2 \/ o1 + n <= o2 \/ o2 + k <= o1
  | _, _ => True
  end.

(** The bytes of the string ["hello"], used in the examples. *)
Definition hello : list byte :=
  [Byte.x68; Byte.x65; Byte.x6c; Byte.x6c; Byte.x6f].

(** A run of [Value] calls, as a caller that stores one object after the
    other makes them. *)
Fixpoint Value_many (sz : Z) (fuel : nat) (vs : list (list byte)) : M (list ptr) :=
  match vs with
  | [] => ret []
  | v :: vs' =>
      let* p := Value sz fuel v in
      let* ps := Value_many sz fuel vs' in
      ret (p :: ps)
  end.

(** Where an object lies that the arena hands out from the state [(a, m)]
    on: in the active chunk at or behind the cursor, or in a block that the
    heap does not hold yet. *)
Definition handed_after (a : Arena) (m : mem) (p : ptr) : Prop :=
  match p with
  | Null => False
  | Ptr b off => (b = current a /\ cursor a <= off) \/ (length m <= b)%nat
  end.

(** A range of bytes that was stored before the arena reached the state
    [(a, m)]: it lies in a block the heap holds and, when that block is the
    active chunk, below the cursor. *)
Definition stored_before (a : Arena) (m : mem) (q : ptr) (n : Z) : Prop :=
  match q with
  | Null => True
  | Ptr b off => (b < length m)%nat /\ (b = current a -> off + n <= cursor a)
  end.

(** * Tactics *)

Ltac munfold :=
  unfold bind, get, modify, ret, panic, get_mem, put_mem, diverge in *.

Ltac zbool :=
  rewrite ?Z.gtb_ltb, ?Z.geb_leb in *;
  repeat match goal with
    | |- context [?x <? ?y] => destruct (Z.ltb_spec x y)
    | |- context [?x <=? ?y] => destruct (Z.leb_spec x y)
    | |- context [?x =? ?y] => destruct (Z.eqb_spec x y)
    end; cbn [negb andb orb] in *.

(** [lia] with the [int64] bounds unfolded and every wrapped sum taken as an
    unknown. *)
Ltac hide_wrap :=
  repeat match goal with
    | |- context [wrap64 ?x] =>
        let w := fresh "w" in set (w := wrap64 x) in *; clearbody w
    | H : context [wrap64 ?x] |- _ =>
        let w := fresh "w" in set (w := wrap64 x) in *; clearbody w
    end.

Ltac int64_range :=
  unfold in_int64, int64_min, int64_max in *; hide_wrap; lia.

Ltac run_alloc fuel n :=
  eapply (step_alloc fuel n); [int64_range | vm_compute; reflexivity].

Ltac run_reset := eapply step_reset; vm_compute; reflexivity.

(** Evaluates the conjuncts of a concrete run from left to right, so that
    each state is known before the next call is evaluated. *)
Ltac run_conj :=
  repeat (split; [vm_compute; reflexivity |]); vm_compute; reflexivity.

(** * Machine arithmetic *)

Lemma wrap64_id z : in_int64 z -> wrap64 z = z.
Proof.
  unfold in_int64, int64_min, int64_max, wrap64. intros H.
  rewrite Z.mod_small; lia.
Qed.

Lemma wrap64_range z : in_int64 (wrap64 z).
Proof.
  unfold in_int64, int64_min, int64_max, wrap64.
  pose proof (Z.mod_pos_bound (z + 2 ^ 63) (2 ^ 64)). lia.
Qed.

Lemma wrap64_sub_add c n : in_int64 c -> wrap64 (wrap64 (c + n) - n) = c.
Proof.
  intros Hc. unfold wrap64 at 1. unfold wrap64.
  replace ((c + n + 2 ^ 63) mod 2 ^ 64 - 2 ^ 63 - n + 2 ^ 63)
    with ((c + n + 2 ^ 63) mod 2 ^ 64 - n) by lia.
  rewrite Zminus_mod_idemp_l.
  replace (c + n + 2 ^ 63 - n) with (c + 2 ^ 63) by lia.
  unfold in_int64, int64_min, int64_max in Hc.
  rewrite Z.mod_small; lia.
Qed.

Lemma wrap64_self_sub n : wrap64 (n - n) = 0.
Proof. rewrite Z.sub_diag. reflexivity. Qed.

(** * The equations of [alloc] and [resize] *)

Lemma alloc_fast f n a m :
  wrap64 (cursor a + n) < chunkSize a ->
  alloc (S f) n a m =
    slice_addr (current a) (wrap64 (wrap64 (cursor a + n) - n))
      (wrap64 (cursor a + n)) (set_cursor (wrap64 (cursor a + n)) a) m.
Proof.
  intros H. cbn [alloc]. munfold.
  destruct (Z.ltb_spec (wrap64 (cursor a + n)) (chunkSize a)); [reflexivity | lia].
Qed.

Lemma alloc_slow f n a m :
  chunkSize a <= wrap64 (cursor a + n) ->
  alloc (S f) n a m =
    resize (alloc f n) n (wrap64 (cursor a + n))
      (set_cursor (wrap64 (cursor a + n)) a) m.
Proof.
  intros H. cbn [alloc]. munfold.
  destruct (Z.ltb_spec (wrap64 (cursor a + n)) (chunkSize a)); [lia | reflexivity].
Qed.

Lemma resize_limit retry n next a m :
  limit a <> 0 -> limit a <= chunkCursor a ->
  resize retry n next a m = Some (Panic CapacityExceeded, a, m).
Proof.
  intros H0 H1. unfold resize. munfold. zbool; try lia; reflexivity.
Qed.

Lemma resize_swap retry n a m :
  limit a = 0 \/ chunkCursor a < limit a ->
  resize retry n (cursor a) a m = rollover n (set_cursor n a) m.
Proof.
  intros H. unfold resize. munfold. zbool; try lia; reflexivity.
Qed.

(** On overflow the calling thread either meets the limit or performs the
    rollover itself: run by one thread, the swap cannot fail and [alloc] is
    not re-entered. *)
Lemma alloc_overflow f n a m :
  chunkSize a <= wrap64 (cursor a + n) ->
  alloc (S f) n a m =
    if negb (limit a =? 0) && (chunkCursor a >=? limit a)
    then Some (Panic CapacityExceeded, set_cursor (wrap64 (cursor a + n)) a, m)
    else rollover n (set_cursor n a) m.
Proof.
  intros H. rewrite alloc_slow by assumption.
  set (a1 := set_cursor (wrap64 (cursor a + n)) a).
  change (limit a) with (limit a1). change (chunkCursor a) with (chunkCursor a1).
  change (wrap64 (cursor a + n)) with (cursor a1).
  replace (set_cursor n a) with (set_cursor n a1) by reflexivity.
  destruct (negb (limit a1 =? 0) && (chunkCursor a1 >=? limit a1)) eqn:E.
  - apply andb_true_iff in E as [E1 E2].
    apply negb_true_iff, Z.eqb_neq in E1. apply Z.geb_le in E2.
    apply resize_limit; lia.
  - apply resize_swap. apply andb_false_iff in E as [E | E].
    + apply negb_false_iff, Z.eqb_eq in E. lia.
    + rewrite Z.geb_leb in E. apply Z.leb_gt in E. lia.
Qed.

(** One unit of fuel is all [alloc] ever uses. *)
Lemma alloc_fuel f n a m : alloc (S f) n a m = alloc 1 n a m.
Proof.
  destruct (Z.lt_ge_cases (wrap64 (cursor a + n)) (chunkSize a)).
  - rewrite !alloc_fast by assumption. reflexivity.
  - rewrite !alloc_overflow by lia. reflexivity.
Qed.

Lemma alloc_returns f n a m : exists r, alloc (S f) n a m = Some r.
Proof.
  destruct (Z.lt_ge_cases (wrap64 (cursor a + n)) (chunkSize a)).
  - rewrite alloc_fast by assumption. unfold slice_addr.
    repeat case_match; eauto.
  - rewrite alloc_overflow by lia. unfold rollover, select_chunk, trails_end, index_chunk,
      make_bytes, slice_addr. munfold.
    repeat (case_match; simplify_eq; eauto).
Qed.

Lemma slice_addr_state b lo hi a m o a' m' :
  slice_addr b lo hi a m = Some (o, a', m') -> a' = a /\ m' = m.
Proof. unfold slice_addr. intros H. repeat case_match; simplify_eq; auto. Qed.

Lemma slice_addr_ok b lo hi a m p a' m' :
  slice_addr b lo hi a m = Some (Ok p, a', m') ->
  p = Ptr b lo /\ 0 <= lo /\ lo < hi /\ hi <= cap_of m b.
Proof.
  unfold slice_addr. intros H.
  destruct (Z.leb_spec 0 lo), (Z.leb_spec lo hi), (Z.leb_spec hi (cap_of m b)),
    (Z.ltb_spec 0 (hi - lo)); cbn in H; simplify_eq.
  repeat split; auto; lia.
Qed.

Lemma slice_addr_in_bounds b lo hi a m :
  0 <= lo -> lo < hi -> hi <= cap_of m b ->
  slice_addr b lo hi a m = Some (Ok (Ptr b lo), a, m).
Proof.
  intros H1 H2 H3. unfold slice_addr.
  destruct (Z.leb_spec 0 lo), (Z.leb_spec lo hi), (Z.leb_spec hi (cap_of m b)),
    (Z.ltb_spec 0 (hi - lo)); cbn; try lia; reflexivity.
Qed.

Lemma select_chunk_spec a m :
  (exists a' m', select_chunk a m = Some (Ok tt, a', m') /\ chunk_step a m a' m')
  \/ (select_chunk a m = Some (Panic RuntimeError, a, m)
      /\ (chunkCursor a < 0 \/ chunkSize a < 0)).
Proof.
  unfold select_chunk, trails_end, index_chunk, make_bytes. munfold.
  destruct (Z.ltb_spec (chunkCursor a) (Z.of_nat (length (chunks a)) - 1)) as [Hlt | Hge].
  - destruct (Z.leb_spec 0 (chunkCursor a)) as [H0 | H0].
    + destruct (chunks a !! Z.to_nat (chunkCursor a)) as [b |] eqn:E.
      * left. eexists _, _. split; [reflexivity |]. apply cs_reuse; auto.
      * apply lookup_ge_None in E. lia.
    + right. auto.
  - destruct (Z.ltb_spec (Z.of_nat (length (chunks a))) (limit a)) as [Hl | Hl].
    + destruct (Z.ltb_spec (chunkSize a) 0) as [Hs | Hs].
      * right. auto.
      * left. eexists _, _. split; [reflexivity |]. apply cs_append; auto.
    + left. eexists _, _. split; [reflexivity |]. apply cs_keep; auto.
Qed.

Lemma rollover_spec n a m o a2 m2 :
  rollover n a m = Some (o, a2, m2) ->
  (o = Panic RuntimeError /\ a2 = a /\ m2 = m
   /\ (chunkCursor a < 0 \/ chunkSize a < 0))
  \/ exists a1,
       chunk_step a m a1 m2
       /\ a2 = set_chunkCursor (wrap64 (chunkCursor a1 + 1)) a1
       /\ (if n >? chunkSize a1 then o = Panic ObjectTooLarge
           else slice_addr (current a1) 0 n a2 m2 = Some (o, a2, m2)).
Proof.
  unfold rollover. intros H.
  destruct (select_chunk_spec a m) as [(a1 & m1 & E & Hstep) | [E Hneg]].
  - right. exists a1. unfold bind at 1 in H. rewrite E in H. munfold.
    rewrite wrap64_self_sub in H.
    change (chunkSize (set_chunkCursor (wrap64 (chunkCursor a1 + 1)) a1))
      with (chunkSize a1) in H.
    change (current (set_chunkCursor (wrap64 (chunkCursor a1 + 1)) a1))
      with (current a1) in H.
    destruct (n >? chunkSize a1).
    + simplify_eq. split; [assumption | split; reflexivity].
    + pose proof (slice_addr_state _ _ _ _ _ _ _ _ H) as [-> ->].
      split; [assumption | split; [reflexivity | assumption]].
  - left. unfold bind at 1 in H. rewrite E in H. simplify_eq. auto.
Qed.

Lemma alloc_spec f n a m o a' m' :
  alloc (S f) n a m = Some (o, a', m') ->
  let next := wrap64 (cursor a + n) in
  (next < chunkSize a /\ a' = set_cursor next a /\ m' = m
   /\ slice_addr (current a) (wrap64 (next - n)) next a' m = Some (o, a', m))
  \/ (chunkSize a <= next /\ limit a <> 0 /\ limit a <= chunkCursor a
      /\ o = Panic CapacityExceeded /\ a' = set_cursor next a /\ m' = m)
  \/ (chunkSize a <= next /\ (limit a = 0 \/ chunkCursor a < limit a)
      /\ rollover n (set_cursor n a) m = Some (o, a', m')).
Proof.
  intros H next.
  destruct (Z.lt_ge_cases next (chunkSize a)) as [Hlt | Hge].
  - left. rewrite alloc_fast in H by assumption. fold next in H.
    pose proof (slice_addr_state _ _ _ _ _ _ _ _ H) as [-> ->].
    split_and!; auto.
  - right. rewrite alloc_overflow in H by assumption. fold next in H.
    destruct (negb (limit a =? 0) && (chunkCursor a >=? limit a)) eqn:E.
    + left. apply andb_true_iff in E as [E1 E2].
      apply negb_true_iff, Z.eqb_neq in E1. apply Z.geb_le in E2.
      simplify_eq. split_and!; auto.
    + right. split; [assumption |]. split; [| assumption].
      apply andb_false_iff in E as [E | E].
      * apply negb_false_iff, Z.eqb_eq in E. lia.
      * rewrite Z.geb_leb in E. apply Z.leb_gt in E. lia.
Qed.

(** * Memory *)

Lemma unsafe_Slice_ok esz b off len a m :
  0 <= len -> esz * len < 2 ^ 64 ->
  unsafe_Slice esz (Ptr b off) len a m =
    Some (Ok (mkSlice (Ptr b off) len len), a, m).
Proof.
  intros Hlen Hsize. unfold unsafe_Slice.
  destruct (Z.ltb_spec len 0); [lia |].
  destruct (Z.leb_spec (2 ^ 64) (esz * len)); [lia |]. reflexivity.
Qed.


Lemma unsafe_Slice_inv esz p len a m r a' m' :
  unsafe_Slice esz p len a m = Some (Ok r, a', m') ->
  r = mkSlice p len len /\ a' = a /\ m' = m /\ 0 <= len /\ esz * len < 2 ^ 64.
Proof.
  unfold unsafe_Slice. intros H.
  destruct (Z.ltb_spec len 0); [discriminate |].
  destruct (Z.leb_spec (2 ^ 64) (esz * len)); [discriminate |].
  destruct p as [| b off]; [destruct (0 <? len); [discriminate |] |];
    unfold ret in H; simplify_eq; auto.
Qed.

Lemma inserts_window {A} (i : nat) (k l : list A) :
  (i + length k <= length l)%nat ->
  take (length k) (drop i (list_inserts i k l)) = k.
Proof.
  intros Hfit. apply list_eq. intros j.
  destruct (decide (j < length k)%nat) as [Hj | Hj].
  - rewrite lookup_take_lt, lookup_drop by assumption.
    rewrite list_lookup_inserts by lia. f_equal. lia.
  - rewrite lookup_take_ge by lia. symmetry. apply lookup_ge_None. lia.
Qed.

Lemma inserts_outside {A} (i j n : nat) (k l : list A) :
  (j + n <= i \/ i + length k <= j)%nat ->
  take n (drop j (list_inserts i k l)) = take n (drop j l).
Proof.
  intros Hout. apply list_eq. intros x.
  destruct (decide (x < n)%nat) as [Hx | Hx].
  - rewrite !lookup_take_lt, !lookup_drop by assumption.
    destruct Hout; [apply list_lookup_inserts_lt | apply list_lookup_inserts_ge]; lia.
  - rewrite !lookup_take_ge by lia. reflexivity.
Qed.

Lemma load_length m p n bs : load m p n = Some bs -> Z.of_nat (length bs) = n.
Proof.
  unfold load. destruct (Z.eqb_spec n 0) as [-> | Hn].
  - intros [= <-]. reflexivity.
  - destruct p as [| b off]; [discriminate |].
    destruct (m !! b) as [old |]; [| discriminate].
    destruct (Z.leb_spec 0 off), (Z.leb_spec 0 n),
      (Z.leb_spec (off + n) (Z.of_nat (length old))); cbn; try discriminate.
    intros [= <-]. rewrite length_take, length_drop. lia.
Qed.

Lemma load_app m m2 p n bs : load m p n = Some bs -> load (m ++ m2) p n = Some bs.
Proof.
  unfold load. destruct (n =? 0); [auto |].
  destruct p as [| b off]; [auto |].
  destruct (m !! b) as [old |] eqn:E; [| discriminate].
  rewrite lookup_app_l by (eapply lookup_lt_Some; eassumption).
  rewrite E. auto.
Qed.

Lemma load_in_block m b off n old :
  m !! b = Some old -> 0 <= off -> 0 <= n -> off + n <= Z.of_nat (length old) ->
  load m (Ptr b off) n = Some (take (Z.to_nat n) (drop (Z.to_nat off) old)).
Proof.
  intros E H0 Hn Hfit. unfold load. destruct (Z.eqb_spec n 0) as [-> | Hne].
  - reflexivity.
  - rewrite E.
    destruct (Z.leb_spec 0 off), (Z.leb_spec 0 n),
      (Z.leb_spec (off + n) (Z.of_nat (length old))); cbn [andb]; try lia; reflexivity.
Qed.

Lemma store_in_block m b off bs old :
  m !! b = Some old -> 0 <= off ->
  off + Z.of_nat (length bs) <= Z.of_nat (length old) ->
  exists m',
    store m (Ptr b off) bs = Some m'
    /\ length m' = length m
    /\ (forall b', b' <> b -> m' !! b' = m !! b')
    /\ exists new, m' !! b = Some new /\ length new = length old.
Proof.
  intros E H0 Hfit. unfold store. destruct bs as [| x bs].
  - exists m. split_and!; auto. exists old. auto.
  - rewrite E.
    destruct (Z.leb_spec 0 off),
      (Z.leb_spec (off + Z.of_nat (length (x :: bs))) (Z.of_nat (length old)));
      cbn [andb]; try lia.
    eexists. split; [reflexivity |]. split_and!.
    + apply length_insert.
    + intros b' Hne. apply list_lookup_insert_ne. auto.
    + eexists. split.
      * apply list_lookup_insert_eq. eapply lookup_lt_Some. eassumption.
      * apply length_inserts.
Qed.

Lemma load_store_same m p bs m' :
  store m p bs = Some m' -> load m' p (Z.of_nat (length bs)) = Some bs.
Proof.
  unfold store. destruct bs as [| x bs]; [intros _; reflexivity |].
  destruct p as [| b off]; [discriminate |].
  destruct (m !! b) as [old |] eqn:E; [| discriminate].
  destruct (Z.leb_spec 0 off),
    (Z.leb_spec (off + Z.of_nat (length (x :: bs))) (Z.of_nat (length old)));
    cbn [andb]; try discriminate.
  intros Hst.
  assert (m' = <[b := list_inserts (Z.to_nat off) (x :: bs) old]> m) as ->
    by congruence.
  clear Hst.
  assert (Hlk : <[b := list_inserts (Z.to_nat off) (x :: bs) old]> m !! b =
                Some (list_inserts (Z.to_nat off) (x :: bs) old)).
  { apply list_lookup_insert_eq. eapply lookup_lt_Some. eassumption. }
  rewrite (load_in_block _ _ _ _ _ Hlk) by (rewrite ?length_inserts; lia).
  rewrite Nat2Z.id. f_equal. apply inserts_window. lia.
Qed.

Lemma load_store_other m p bs m' q n :
  store m p bs = Some m' ->
  disjoint_range p (Z.of_nat (length bs)) q n ->
  load m' q n = load m q n.
Proof.
  unfold store. destruct bs as [| x bs]; [intros [= <-]; reflexivity |].
  destruct p as [| b off]; [discriminate |].
  destruct (m !! b) as [old |] eqn:E; [| discriminate].
  destruct (Z.leb_spec 0 off),
    (Z.leb_spec (off + Z.of_nat (length (x :: bs))) (Z.of_nat (length old)));
    cbn [andb]; try discriminate.
  intros Hst Hdis.
  assert (m' = <[b := list_inserts (Z.to_nat off) (x :: bs) old]> m) as ->
    by congruence.
  clear Hst. unfold load. destruct (n =? 0); [reflexivity |].
  destruct q as [| b' off']; [reflexivity |]. cbn in Hdis.
  destruct (decide (b' = b)) as [-> | Hne].
  - rewrite list_lookup_insert_eq by (eapply lookup_lt_Some; eassumption).
    rewrite E, length_inserts.
    destruct (Z.leb_spec 0 off'), (Z.leb_spec 0 n),
      (Z.leb_spec (off' + n) (Z.of_nat (length old))); cbn [andb]; try reflexivity.
    f_equal. apply inserts_outside. cbn [length] in *. lia.
  - rewrite list_lookup_insert_ne by auto. reflexivity.
Qed.

Lemma store_blocks m p bs m' b old :
  store m p bs = Some m' -> m !! b = Some old ->
  exists new, m' !! b = Some new /\ length new = length old.
Proof.
  unfold store. destruct bs as [| x bs]; [intros [= <-]; eauto |].
  destruct p as [| b0 off]; [discriminate |].
  destruct (m !! b0) as [old0 |] eqn:E0; [| discriminate].
  destruct ((0 <=? off) && (off + Z.of_nat (length (x :: bs)) <=? Z.of_nat (length old0)));
    [| discriminate].
  intros Hst E.
  assert (m' = <[b0 := list_inserts (Z.to_nat off) (x :: bs) old0]> m) as ->
    by congruence.
  destruct (decide (b = b0)) as [-> | Hne].
  - rewrite list_lookup_insert_eq by (eapply lookup_lt_Some; eassumption).
    eexists. split; [reflexivity |]. rewrite length_inserts. congruence.
  - rewrite list_lookup_insert_ne by auto. eauto.
Qed.

Lemma store_length m p bs m' : store m p bs = Some m' -> length m' = length m.
Proof.
  unfold store. destruct bs as [| x bs]; [intros [= <-]; reflexivity |].
  destruct p as [| b0 off]; [discriminate |].
  destruct (m !! b0) as [old0 |]; [| discriminate].
  destruct ((0 <=? off) && (off + Z.of_nat (length (x :: bs)) <=? Z.of_nat (length old0)));
    [| discriminate].
  intros Hst.
  assert (m' = <[b0 := list_inserts (Z.to_nat off) (x :: bs) old0]> m) as ->
    by congruence.
  apply length_insert.
Qed.

(** * Preservation of the invariants *)

Lemma chunk_ok_app C m l b : chunk_ok C m b -> chunk_ok C (m ++ l) b.
Proof.
  intros (bs & E & Hlen). exists bs. split; [| assumption].
  rewrite lookup_app_l; [assumption |]. eapply lookup_lt_Some; eassumption.
Qed.

Lemma chunk_ok_cap C m b : chunk_ok C m b -> cap_of m b = C.
Proof. intros (bs & E & Hlen). unfold cap_of. rewrite E. assumption. Qed.

Lemma chunk_ok_fresh C m :
  0 <= C -> chunk_ok C (m ++ [replicate (Z.to_nat C) zero_byte]) (length m).
Proof.
  intros HC. exists (replicate (Z.to_nat C) zero_byte). split.
  - rewrite lookup_app_r by lia. rewrite Nat.sub_diag. reflexivity.
  - rewrite length_replicate. lia.
Qed.

Lemma chunk_step_wf c0 a m a' m' :
  wf c0 a m -> chunk_step a m a' m' -> wf c0 a' m'.
Proof.
  intros [Hs Hf Hc Hb Hcur] Hstep. destruct a as [C L c cc cur chs].
  inversion Hstep; subst; cbn in *.
  - constructor; cbn; auto. eapply list_elem_of_lookup_2; eassumption.
  - constructor; cbn; auto.
    + destruct chs; cbn in *; [discriminate | assumption].
    + apply elem_of_app. right. apply list_elem_of_singleton. reflexivity.
    + apply Forall_app. split.
      * eapply Forall_impl; [eassumption |]. intros b. apply chunk_ok_app.
      * constructor; [| constructor]. apply chunk_ok_fresh. lia.
  - constructor; auto.
Qed.

Lemma alloc_wf c0 f n a m o a' m' :
  wf c0 a m -> in_int64 n ->
  alloc (S f) n a m = Some (o, a', m') -> wf c0 a' m'.
Proof.
  intros Hwf Hn H. apply alloc_spec in H.
  assert (Hset : forall v, in_int64 v -> wf c0 (set_cursor v a) m).
  { intros v Hv. destruct Hwf. constructor; auto. }
  destruct H as [(_ & -> & -> & _) | [(_ & _ & _ & _ & -> & ->) | (_ & _ & H)]].
  - apply Hset, wrap64_range.
  - apply Hset, wrap64_range.
  - apply rollover_spec in H.
    destruct H as [(_ & -> & -> & _) | (a1 & Hstep & -> & _)].
    + apply Hset, Hn.
    + eapply chunk_step_wf in Hstep; [| apply Hset, Hn].
      destruct Hstep. constructor; auto.
Qed.

(** ** Zeroing *)

Lemma zero_chunk_length m b : length (zero_chunk m b) = length m.
Proof. unfold zero_chunk. case_match; [apply length_insert | reflexivity]. Qed.

Lemma zero_chunk_lookup m b b' bs :
  m !! b' = Some bs ->
  zero_chunk m b !! b' =
    Some (if decide (b' = b) then replicate (length bs) zero_byte else bs).
Proof.
  intros E. unfold zero_chunk. destruct (decide (b' = b)) as [-> | Hne].
  - rewrite E. apply list_lookup_insert_eq. eapply lookup_lt_Some; eassumption.
  - case_match; [| assumption]. rewrite list_lookup_insert_ne by auto. assumption.
Qed.

Lemma zero_chunks_lookup l m b bs :
  m !! b = Some bs ->
  foldl zero_chunk m l !! b =
    Some (if decide (b ∈ l) then replicate (length bs) zero_byte else bs).
Proof.
  revert m bs. induction l as [| b0 l IH]; intros m bs E; cbn.
  - rewrite decide_False by apply not_elem_of_nil. assumption.
  - erewrite IH by (apply zero_chunk_lookup; eassumption).
    destruct (decide (b = b0)) as [-> | Hne].
    + rewrite (decide_True (P := b0 ∈ b0 :: l)) by apply list_elem_of_here.
      rewrite length_replicate. destruct (decide (b0 ∈ l)); reflexivity.
    + destruct (decide (b ∈ l)) as [Hin | Hout].
      * rewrite decide_True by (apply elem_of_cons; auto). reflexivity.
      * rewrite decide_False; [reflexivity |].
        intros [? | ?]%elem_of_cons; contradiction.
Qed.

Lemma zero_chunks_ok C l m b : chunk_ok C m b -> chunk_ok C (foldl zero_chunk m l) b.
Proof.
  intros (bs & E & Hlen). eexists. split.
  - apply zero_chunks_lookup. eassumption.
  - destruct (decide (b ∈ l)); [rewrite length_replicate |]; assumption.
Qed.

(** ** [Reset] and [Create] *)

Lemma Reset_eq a m c0 rest :
  chunks a = c0 :: rest ->
  Reset a m =
    Some (Ok tt, mkArena (chunkSize a) (limit a) 0 0 c0 [c0],
          foldl zero_chunk m (chunks a)).
Proof.
  intros E. unfold Reset, index_chunk. munfold. cbn. rewrite E.
  change (Z.to_nat 0) with 0%nat. cbn. rewrite Z.eqb_refl. reflexivity.
Qed.

Lemma Reset_nil a m :
  chunks a = [] -> Reset a m = Some (Panic RuntimeError, a, foldl zero_chunk m []).
Proof.
  intros E. unfold Reset, index_chunk. munfold. cbn. rewrite E. reflexivity.
Qed.

Lemma Reset_wf c0 a m o a' m' :
  wf c0 a m -> Reset a m = Some (o, a', m') -> wf c0 a' m'.
Proof.
  intros [Hs Hf Hc Hb Hcur] H.
  destruct (chunks a) as [| c rest] eqn:E; [discriminate |].
  cbn in Hf. simplify_eq.
  rewrite (Reset_eq _ _ _ _ E) in H. simplify_eq.
  constructor; cbn; auto.
  - apply list_elem_of_here.
  - constructor; [| constructor]. apply zero_chunks_ok.
    inversion Hb; assumption.
  - unfold in_int64, int64_min, int64_max. lia.
Qed.

Lemma step_wf c0 a m a' m' : wf c0 a m -> step a m a' m' -> wf c0 a' m'.
Proof.
  intros Hwf Hstep. inversion Hstep; subst.
  - destruct f as [| f]; [discriminate |]. eapply alloc_wf; eassumption.
  - eapply Reset_wf; eassumption.
  - destruct Hwf as [Hs Hf Hc Hb Hcur]. constructor; auto.
    eapply Forall_impl; [exact Hb |]. intros b (old & E & Hlen).
    match goal with H : store _ _ _ = _ |- _ =>
      destruct (store_blocks _ _ _ _ _ _ H E) as (new & E' & Hlen') end.
    exists new. split; [assumption | lia].
Qed.

Lemma steps_wf c0 k a m a' m' : wf c0 a m -> steps k a m a' m' -> wf c0 a' m'.
Proof.
  intros Hwf Hsteps. induction Hsteps; [assumption |].
  eapply step_wf; [| eassumption]. auto.
Qed.

Lemma options_fold ls a :
  foldl (fun a' (o : Option) => o a') a (map WithLimit ls) =
    set_limit (foldl (fun _ l => l) (limit a) ls) a.
Proof.
  revert a. induction ls as [| l ls IH]; intros a; cbn.
  - destruct a; reflexivity.
  - rewrite IH. reflexivity.
Qed.

Lemma Create_eq C ls m0 :
  0 <= C ->
  Create C (map WithLimit ls) m0 =
    (Ok (mkArena C (final_limit ls) 0 0 (length m0) [length m0]),
     m0 ++ [replicate (Z.to_nat C) zero_byte]).
Proof.
  intros HC. unfold Create. destruct (Z.ltb_spec C 0); [lia |].
  rewrite options_fold. reflexivity.
Qed.

Lemma Create_negative C opts m0 : C < 0 -> Create C opts m0 = (Panic RuntimeError, m0).
Proof. intros HC. unfold Create. destruct (Z.ltb_spec C 0); [reflexivity | lia]. Qed.

Lemma Create_inv C ls m0 a0 m1 :
  Create C (map WithLimit ls) m0 = (Ok a0, m1) ->
  0 <= C
  /\ a0 = mkArena C (final_limit ls) 0 0 (length m0) [length m0]
  /\ m1 = m0 ++ [replicate (Z.to_nat C) zero_byte].
Proof.
  intros H. destruct (Z.lt_ge_cases C 0) as [Hneg | Hpos].
  - rewrite Create_negative in H by assumption. discriminate.
  - rewrite Create_eq in H by assumption. simplify_eq. auto.
Qed.

Lemma Create_wf C ls m0 a0 m1 :
  C <= int64_max ->
  Create C (map WithLimit ls) m0 = (Ok a0, m1) -> wf (length m0) a0 m1.
Proof.
  intros Hmax H. apply Create_inv in H as (HC & -> & ->).
  constructor; cbn.
  - lia.
  - reflexivity.
  - apply list_elem_of_here.
  - constructor; [| constructor]. apply chunk_ok_fresh. assumption.
  - unfold in_int64, int64_min, int64_max. lia.
Qed.

(** ** The configuration never changes *)

Lemma chunk_step_static a m a' m' :
  chunk_step a m a' m' -> chunkSize a' = chunkSize a /\ limit a' = limit a.
Proof. intros H. inversion H; subst; auto. Qed.

Lemma alloc_static f n a m o a' m' :
  alloc (S f) n a m = Some (o, a', m') ->
  chunkSize a' = chunkSize a /\ limit a' = limit a.
Proof.
  intros H. apply alloc_spec in H.
  destruct H as [(_ & -> & _) | [(_ & _ & _ & _ & -> & _) | (_ & _ & H)]]; auto.
  apply rollover_spec in H.
  destruct H as [(_ & -> & _) | (a1 & Hstep & -> & _)]; auto.
  apply chunk_step_static in Hstep. apply Hstep.
Qed.

Lemma Reset_static a m o a' m' :
  Reset a m = Some (o, a', m') ->
  chunkSize a' = chunkSize a /\ limit a' = limit a.
Proof.
  intros H. destruct (chunks a) as [| c rest] eqn:E.
  - rewrite Reset_nil in H by assumption. simplify_eq. auto.
  - rewrite (Reset_eq _ _ _ _ E) in H. simplify_eq. auto.
Qed.

Lemma step_static a m a' m' :
  step a m a' m' -> chunkSize a' = chunkSize a /\ limit a' = limit a.
Proof.
  intros H. inversion H; subst.
  - destruct f; [discriminate |]. eapply alloc_static; eassumption.
  - eapply Reset_static; eassumption.
  - auto.
Qed.

Lemma steps_static k a m a' m' :
  steps k a m a' m' -> chunkSize a' = chunkSize a /\ limit a' = limit a.
Proof.
  intros H. induction H as [| k a m a1 m1 a2 m2 _ [IH1 IH2] Hstep]; [auto |].
  apply step_static in Hstep as [-> ->]. auto.
Qed.

(** ** The chunk index stays at the end of the chunk list *)

Lemma index_inv_mono k a : index_inv k a -> index_inv (S k) a.
Proof. intros []. constructor; auto. lia. Qed.

Lemma index_inv_cursor k v a : index_inv k a -> index_inv k (set_cursor v a).
Proof. intros []. constructor; auto. Qed.

Lemma chunk_step_index k a m a1 m1 :
  index_inv k a ->
  limit a = 0 \/ chunkCursor a < limit a ->
  in_int64 (limit a) ->
  (limit a = 0 -> Z.of_nat k < int64_max) ->
  chunk_step a m a1 m1 ->
  index_inv (S k) (set_chunkCursor (wrap64 (chunkCursor a1 + 1)) a1).
Proof.
  intros [H0 Hk Hidx Hlast Hun Hlim] Hroom HL Hbound Hstep.
  assert (Hw : wrap64 (chunkCursor a + 1) = chunkCursor a + 1).
  { apply wrap64_id. unfold in_int64, int64_min, int64_max in *. lia. }
  destruct a as [C L c cc cur chs]. inversion Hstep; subst; cbn in *.
  - lia.
  - rewrite Hw. destruct Hlim as [Hle Hcount]; [lia |].
    constructor; cbn; rewrite ?length_app; cbn;
      first [lia | apply last_snoc | intros _; split; lia].
  - rewrite Hw. constructor; cbn;
      first [lia | assumption | intros HL0; destruct (Hlim HL0); split; lia].
Qed.

Lemma alloc_index k f n a m o a' m' :
  index_inv k a ->
  in_int64 (limit a) ->
  (limit a = 0 -> Z.of_nat k < int64_max) ->
  alloc (S f) n a m = Some (o, a', m') ->
  index_inv (S k) a'.
Proof.
  intros Hinv HL Hbound H. apply alloc_spec in H.
  destruct H as [(_ & -> & _) | [(_ & _ & _ & _ & -> & _) | (_ & Hroom & H)]].
  - apply index_inv_mono, index_inv_cursor, Hinv.
  - apply index_inv_mono, index_inv_cursor, Hinv.
  - apply rollover_spec in H.
    destruct H as [(_ & -> & _) | (a1 & Hstep & -> & _)].
    + apply index_inv_mono, index_inv_cursor, Hinv.
    + eapply chunk_step_index; [| | | | eassumption]; auto.
      apply index_inv_cursor, Hinv.
Qed.

Lemma Reset_index k a m o a' m' :
  index_inv k a -> Reset a m = Some (o, a', m') -> index_inv (S k) a'.
Proof.
  intros Hinv H. destruct (chunks a) as [| c rest] eqn:E.
  - destruct Hinv as [_ _ _ Hlast _ _]. rewrite E in Hlast. discriminate.
  - rewrite (Reset_eq _ _ _ _ E) in H. simplify_eq.
    constructor; cbn; try lia; auto.
Qed.

Lemma step_index k a m a' m' :
  index_inv k a ->
  in_int64 (limit a) ->
  (limit a = 0 -> Z.of_nat k < int64_max) ->
  step a m a' m' -> index_inv (S k) a'.
Proof.
  intros Hinv HL Hbound Hstep. inversion Hstep; subst.
  - destruct f; [discriminate |]. eapply alloc_index; eassumption.
  - eapply Reset_index; eassumption.
  - apply index_inv_mono. assumption.
Qed.

Lemma steps_index k a m a' m' :
  index_inv 0 a ->
  in_int64 (limit a) ->
  (limit a = 0 -> Z.of_nat k <= int64_max) ->
  steps k a m a' m' -> index_inv k a'.
Proof.
  intros Hinv HL Hbound Hsteps.
  induction Hsteps as [| k a m a1 m1 a2 m2 Hsteps IH Hstep]; [assumption |].
  pose proof (steps_static _ _ _ _ _ Hsteps) as [_ El].
  eapply step_index; [| | | eassumption].
  - apply IH; auto. lia.
  - rewrite El. assumption.
  - rewrite El. lia.
Qed.

Lemma final_limit_int64 ls : Forall in_int64 ls -> in_int64 (final_limit ls).
Proof.
  unfold final_limit.
  assert (H0 : in_int64 0) by (unfold in_int64, int64_min, int64_max; lia).
  revert H0. generalize 0. induction ls as [| l ls IH]; intros z Hz Hall; cbn.
  - assumption.
  - inversion Hall; subst. apply IH; assumption.
Qed.

Lemma Create_index C ls m0 a0 m1 :
  Create C (map WithLimit ls) m0 = (Ok a0, m1) -> index_inv 0 a0.
Proof.
  intros H. apply Create_inv in H as (_ & -> & _).
  constructor; cbn; try lia; auto.
Qed.

(** * The chunk index and the chunk list (C10, C4, C1) *)

Lemma reachable_index C ls m0 a0 m1 k a m :
  Create C (map WithLimit ls) m0 = (Ok a0, m1) ->
  Forall in_int64 ls ->
  (final_limit ls = 0 -> Z.of_nat k <= int64_max) ->
  steps k a0 m1 a m ->
  index_inv k a /\ limit a = final_limit ls /\ chunkSize a = C.
Proof.
  intros HC Hls Hbound Hsteps.
  pose proof (Create_index _ _ _ _ _ HC) as H0.
  pose proof (steps_static _ _ _ _ _ Hsteps) as [Es El].
  apply Create_inv in HC as (_ & -> & _). cbn in *.
  split; [| auto].
  eapply steps_index; [eassumption | | | eassumption]; cbn.
  - apply final_limit_int64, Hls.
  - assumption.
Qed.

Lemma alloc_chunks k f n a m o a' m' :
  index_inv k a ->
  alloc (S f) n a m = Some (o, a', m') ->
  (chunks a' = chunks a /\ current a' = current a /\ m' = m)
  \/ (chunks a' = chunks a ++ [length m] /\ current a' = length m
      /\ m' = m ++ [replicate (Z.to_nat (chunkSize a)) zero_byte]
      /\ Z.of_nat (length (chunks a)) < limit a).
Proof.
  intros Hinv H. apply alloc_spec in H.
  destruct H as [(_ & -> & -> & _) | [(_ & _ & _ & _ & -> & ->) | (_ & _ & H)]];
    [left; auto | left; auto |].
  apply rollover_spec in H.
  destruct H as [(_ & -> & -> & _) | (a1 & Hstep & -> & _)]; [left; auto |].
  destruct Hinv as [_ _ Hidx _ _ _].
  destruct a as [C L c cc cur chs]. inversion Hstep; subst; cbn in *.
  - lia.
  - right. auto.
  - left. auto.
Qed.

(** C10: in every state reached from [Create] by allocations, [Reset]s and
    writes of the caller the chunk index is at least the chunk count minus
    one and the active chunk is the last element of the chunk list, so that
    the guard of the reuse branch is false and an allocation leaves either
    the same active chunk or a freshly provisioned one.  An arena without a limit counts its
    rollovers in an [int64] that is never checked: for it the statement is
    about runs of at most [2^63 - 1] operations. *)
Theorem C10_chunk_index_at_end C ls m0 a0 m1 k a m :
  Create C (map WithLimit ls) m0 = (Ok a0, m1) ->
  Forall in_int64 ls ->
  (final_limit ls = 0 -> Z.of_nat k <= int64_max) ->
  steps k a0 m1 a m ->
  Z.of_nat (length (chunks a)) - 1 <= chunkCursor a
  /\ last (chunks a) = Some (current a)
  /\ trails_end a = false
  /\ forall f n o a' m',
       alloc (S f) n a m = Some (o, a', m') ->
       (chunks a' = chunks a /\ current a' = current a)
       \/ (chunks a' = chunks a ++ [length m] /\ current a' = length m).
Proof.
  intros HC Hls Hbound Hsteps.
  destruct (reachable_index _ _ _ _ _ _ _ _ HC Hls Hbound Hsteps) as (Hinv & _ & _).
  pose proof Hinv as [_ _ Hidx Hlast _ _].
  split_and!; auto.
  - unfold trails_end. apply Z.ltb_ge. assumption.
  - intros f n o a' m' H.
    destruct (alloc_chunks _ _ _ _ _ _ _ _ Hinv H) as [(? & ? & _) | (? & ? & _)]; auto.
Qed.

Lemma C10_chunk_index_at_end_witness :
  let a := mkArena 8 2 8 1 1%nat [0%nat; 1%nat] in
  Z.of_nat (length (chunks a)) - 1 <= chunkCursor a
  /\ last (chunks a) = Some (current a)
  /\ trails_end a = false
  /\ forall f n o a' m',
       alloc (S f) n a
         [replicate 8 zero_byte; replicate 8 zero_byte] = Some (o, a', m') ->
       (chunks a' = chunks a /\ current a' = current a)
       \/ (chunks a' = chunks a ++ [2%nat] /\ current a' = 2%nat).
Proof.
  apply (C10_chunk_index_at_end 8 [2] [] (mkArena 8 2 0 0 0%nat [0%nat])
           [replicate 8 zero_byte] 3).
  - reflexivity.
  - repeat constructor; int64_range.
  - vm_compute. discriminate.
  - eapply steps_S; [eapply steps_S; [eapply steps_S; [apply steps_O |] |] |].
    + run_alloc 1%nat 3.
    + run_reset.
    + run_alloc 1%nat 8.
Defined.

Lemma slice_addr_outcome b lo hi a m o a' m' :
  slice_addr b lo hi a m = Some (o, a', m') ->
  o = Ok (Ptr b lo) \/ o = Panic RuntimeError.
Proof. unfold slice_addr. intros H. repeat case_match; simplify_eq; auto. Qed.

Lemma alloc_capacity_fault f n a m o a' m' :
  alloc (S f) n a m = Some (o, a', m') ->
  o = Panic CapacityExceeded ->
  chunkSize a <= wrap64 (cursor a + n) /\ limit a <> 0 /\ limit a <= chunkCursor a
  /\ a' = set_cursor (wrap64 (cursor a + n)) a /\ m' = m.
Proof.
  intros H ->. apply alloc_spec in H. cbv zeta in H.
  destruct H as [(_ & _ & _ & H) | [(? & ? & ? & _ & ? & ?) | (_ & _ & H)]].
  - apply slice_addr_outcome in H as [? | ?]; discriminate.
  - auto.
  - apply rollover_spec in H.
    destruct H as [(? & _) | (a1 & _ & _ & H)]; [discriminate |].
    destruct (n >? chunkSize a1); [discriminate |].
    apply slice_addr_outcome in H as [? | ?]; discriminate.
Qed.

Lemma wf_current_cap c0 a m : wf c0 a m -> cap_of m (current a) = chunkSize a.
Proof.
  intros [_ _ Hc Hb _]. apply chunk_ok_cap.
  rewrite Forall_forall in Hb. apply Hb. assumption.
Qed.

(** An overflowing allocation of a valid size below the limit performs the
    rollover and is served from offset 0 of whatever chunk is active then. *)
Lemma alloc_rollover_ok c0 k f n a m :
  wf c0 a m -> index_inv k a ->
  chunkSize a <= wrap64 (cursor a + n) ->
  limit a = 0 \/ chunkCursor a < limit a ->
  0 < n <= chunkSize a ->
  chunkCursor a < int64_max ->
  exists a' m',
    alloc (S f) n a m = Some (Ok (Ptr (current a') 0), a', m')
    /\ chunkCursor a' = chunkCursor a + 1 /\ cursor a' = n.
Proof.
  intros Hwf Hinv Hover Hroom Hn Hcc.
  assert (Hn64 : in_int64 n).
  { destruct Hwf as [Hs _ _ _ _]. int64_range. }
  destruct (alloc_returns f n a m) as [[[o a'] m'] E].
  pose proof (alloc_wf _ _ _ _ _ _ _ _ Hwf Hn64 E) as Hwf'.
  pose proof E as Hspec. apply alloc_spec in Hspec. cbv zeta in Hspec.
  destruct Hspec as [(? & _) | [(_ & ? & ? & _) | (_ & _ & H)]]; [lia | lia |].
  apply rollover_spec in H.
  destruct Hinv as [H0 _ _ _ _ _].
  destruct Hwf as [Hs _ _ _ _].
  destruct H as [(_ & _ & _ & Hneg) | (a1 & Hstep & -> & H)].
  { cbn in Hneg. lia. }
  pose proof (chunk_step_static _ _ _ _ Hstep) as [Es _]. cbn in Es.
  assert (Ecc : chunkCursor a1 = chunkCursor a).
  { inversion Hstep; subst; reflexivity. }
  assert (Ecur : cursor a1 = n).
  { inversion Hstep; subst; reflexivity. }
  rewrite Es in H. destruct (Z.gtb_spec n (chunkSize a)) as [? | _]; [lia |].
  rewrite slice_addr_in_bounds in H.
  - assert (o = Ok (Ptr (current a1) 0)) as -> by congruence.
    exists (set_chunkCursor (wrap64 (chunkCursor a1 + 1)) a1), m'.
    split; [exact E |]. cbn.
    rewrite Ecc. split; [| assumption]. apply wrap64_id. int64_range.
  - lia.
  - lia.
  - apply wf_current_cap in Hwf'. cbn in Hwf'. rewrite Hwf', Es. lia.
Qed.

Lemma alloc_many_cons f n ns a m :
  alloc_many f (n :: ns) a m =
    match alloc f n a m with
    | Some (Ok p, a1, m1) =>
        match alloc_many f ns a1 m1 with
        | Some (Ok ps, a2, m2) => Some (Ok (p :: ps), a2, m2)
        | Some (Panic e, a2, m2) => Some (Panic e, a2, m2)
        | None => None
        end
    | Some (Panic e, a1, m1) => Some (Panic e, a1, m1)
    | None => None
    end.
Proof.
  cbn [alloc_many]. unfold bind at 1.
  destruct (alloc f n a m) as [[[[p | e] a1] m1] |]; reflexivity.
Qed.

(** Chunk-size allocations below the limit: each one rolls over. *)
Lemma fill_to_limit c0 f C L (r : nat) :
  0 < L -> in_int64 L -> 0 < C -> 2 * C <= int64_max ->
  forall k a m,
    wf c0 a m -> index_inv k a ->
    chunkSize a = C -> limit a = L ->
    cursor a = 0 \/ cursor a = C ->
    chunkCursor a + Z.of_nat r <= L ->
    exists ps a' m',
      alloc_many (S f) (replicate r C) a m = Some (Ok ps, a', m')
      /\ length ps = r
      /\ wf c0 a' m' /\ index_inv (k + r) a'
      /\ chunkSize a' = C /\ limit a' = L
      /\ chunkCursor a' = chunkCursor a + Z.of_nat r
      /\ cursor a' = match r with O => cursor a | S _ => C end.
Proof.
  intros HL HL64 HC H2C. induction r as [| r IH]; intros k a m Hwf Hinv Es El Hcur Hcc.
  - exists [], a, m. cbn. rewrite Nat.add_0_r, Z.add_0_r. split_and!; auto.
  - assert (Hover : chunkSize a <= wrap64 (cursor a + C)).
    { rewrite wrap64_id by (destruct Hcur as [-> | ->]; int64_range).
      destruct Hcur as [-> | ->]; lia. }
    destruct (alloc_rollover_ok c0 k f C a m) as (a1 & m1 & E & Ecc & Ecur); auto;
      try int64_range.
    pose proof (alloc_static _ _ _ _ _ _ _ E) as [Es1 El1].
    assert (Hn64 : in_int64 C) by int64_range.
    pose proof (alloc_wf _ _ _ _ _ _ _ _ Hwf Hn64 E) as Hwf1.
    assert (Hinv1 : index_inv (S k) a1).
    { eapply alloc_index; [exact Hinv | | | exact E]; [rewrite El; assumption | lia]. }
    destruct (IH (S k) a1 m1) as (ps & a' & m' & E' & Hlen & ? & ? & ? & ? & ? & Ec');
      auto; try lia.
    assert (cursor a' = C) by (destruct r; congruence).
    exists (Ptr (current a1) 0 :: ps), a', m'.
    change (replicate (S r) C) with (C :: replicate r C).
    rewrite alloc_many_cons, E, E'.
    replace (k + S r)%nat with (S k + r)%nat by lia.
    split_and!; auto; cbn; lia.
Qed.

(** The rollover that takes the chunk index to the limit finds the chunk
    list full and the index at its end: it changes neither the list nor the
    active chunk. *)
Lemma rollover_at_limit c0 k f n a m :
  wf c0 a m -> index_inv k a ->
  0 < limit a -> in_int64 (limit a) ->
  chunkCursor a = limit a - 1 ->
  0 < n <= chunkSize a ->
  chunkSize a <= wrap64 (cursor a + n) ->
  alloc (S f) n a m =
    Some (Ok (Ptr (current a) 0), set_chunkCursor (limit a) (set_cursor n a), m).
Proof.
  intros Hwf Hinv HL HL64 Hcc Hn Hover.
  assert (Hccmax : chunkCursor a < int64_max).
  { unfold in_int64, int64_min, int64_max in *. lia. }
  destruct (alloc_rollover_ok c0 k f n a m) as (a' & m' & E & Ecc & Ecur); auto;
    [right; lia |].
  pose proof (alloc_static _ _ _ _ _ _ _ E) as [Es El].
  pose proof Hinv as [_ _ _ _ _ Hlim]. destruct (Hlim HL) as [_ Hlen].
  destruct (alloc_chunks _ _ _ _ _ _ _ _ Hinv E)
    as [(Ech & Ecu & ->) | (_ & _ & _ & Hroom)]; [| hide_wrap; lia].
  rewrite E, Ecu. do 3 f_equal.
  clear E Hover Hwf Hinv Hlim.
  destruct a, a'; cbn in *; subst.
  replace (limit0 - 1 + 1) with limit0 by lia. reflexivity.
Qed.

(** C4 (what the code does instead): in an arena created with a limit
    [L > 0] an allocation faults with CapacityExceeded exactly when it
    overflows the active chunk while the chunk index, the number of
    rollovers since [Create] or the last [Reset], has reached [L]; the chunk
    count is then [L] and the failed expansion leaves the chunk list, the
    chunk index and the heap as they were.  The fault comes one rollover
    late.  When the chunk list holds [L] chunks and the last of them is
    active, with the chunk index at [L - 1], the allocation that overflows
    it and would need chunk [L + 1] does not fault: it provisions nothing
    and returns offset 0 of the chunk that is already active, on top of
    whatever has been allocated from it.  From the fresh arena [L]
    chunk-size allocations return, the last of them in that way, and only
    the next one faults. *)
Theorem C4_limit_fault C L m0 a0 m1 :
  0 < L -> in_int64 L -> C <= int64_max ->
  Create C [WithLimit L] m0 = (Ok a0, m1) ->
  (forall k a m f n,
     steps k a0 m1 a m ->
     exists o a' m',
       alloc (S f) n a m = Some (o, a', m')
       /\ (o = Panic CapacityExceeded <->
           C <= wrap64 (cursor a + n) /\ L <= chunkCursor a)
       /\ (o = Panic CapacityExceeded ->
           Z.of_nat (length (chunks a)) = L
           /\ chunks a' = chunks a /\ chunkCursor a' = chunkCursor a /\ m' = m))
  /\ (forall k a m f n,
        steps k a0 m1 a m ->
        chunkCursor a = L - 1 ->
        0 < n <= C -> C <= wrap64 (cursor a + n) ->
        Z.of_nat (length (chunks a)) = L
        /\ last (chunks a) = Some (current a)
        /\ alloc (S f) n a m =
             Some (Ok (Ptr (current a) 0), set_chunkCursor L (set_cursor n a), m))
  /\ (0 < C -> 2 * C <= int64_max ->
      forall f, exists ps a m,
        alloc_many (S f) (replicate (Z.to_nat L) C) a0 m1 = Some (Ok ps, a, m)
        /\ length ps = Z.to_nat L
        /\ Z.of_nat (length (chunks a)) = L
        /\ alloc (S f) C a m =
             Some (Panic CapacityExceeded, set_cursor (2 * C) a, m)).
Proof.
  intros HL HL64 HCmax HC.
  change [WithLimit L] with (map WithLimit [L]) in HC.
  assert (Hls : Forall in_int64 [L]) by (constructor; [assumption | constructor]).
  assert (Hfl : final_limit [L] = L) by reflexivity.
  split_and!.
  - intros k a m f n Hsteps.
    destruct (reachable_index _ _ _ _ _ k a m HC Hls) as (Hinv & El & Es); auto.
    { rewrite Hfl. lia. }
    rewrite Hfl in El.
    destruct (alloc_returns f n a m) as [[[o a'] m'] E].
    exists o, a', m'. split; [assumption |].
    assert (Hfault : o = Panic CapacityExceeded ->
                     chunkSize a <= wrap64 (cursor a + n) /\ limit a <> 0
                     /\ limit a <= chunkCursor a
                     /\ a' = set_cursor (wrap64 (cursor a + n)) a /\ m' = m).
    { apply alloc_capacity_fault with (f := f). assumption. }
    split.
    + split.
      * intros Ho. destruct (Hfault Ho) as (? & _ & ? & _). lia.
      * intros [Hover Hcc]. rewrite alloc_overflow in E by lia.
        destruct (Z.eqb_spec (limit a) 0); [lia |].
        destruct (Z.geb_spec (chunkCursor a) (limit a)); [| lia].
        cbn in E. congruence.
    + intros Ho. destruct (Hfault Ho) as (_ & _ & Hcc & -> & ->).
      destruct Hinv as [_ _ _ _ _ Hlim]. destruct Hlim as [? Hcount]; [lia |].
      split_and!; auto. lia.
  - intros k a m f n Hsteps Hcc Hn Hover.
    destruct (reachable_index _ _ _ _ _ k a m HC Hls) as (Hinv & El & Es); auto.
    { rewrite Hfl. lia. }
    rewrite Hfl in El.
    pose proof (Create_wf _ _ _ _ _ HCmax HC) as Hwf0.
    pose proof (steps_wf _ _ _ _ _ _ Hwf0 Hsteps) as Hwf.
    pose proof Hinv as [_ _ _ Hlast _ Hlim].
    destruct Hlim as [_ Hcount]; [lia |].
    split; [lia |]. split; [exact Hlast |].
    rewrite <- El.
    apply (rollover_at_limit (length m0) k); auto; rewrite ?El, ?Es; auto.
  - intros HCpos H2C f.
    pose proof (Create_wf _ _ _ _ _ HCmax HC) as Hwf.
    pose proof (Create_index _ _ _ _ _ HC) as Hinv.
    apply Create_inv in HC as (_ & -> & ->). rewrite Hfl in *.
    edestruct (fill_to_limit (length m0) f C L (Z.to_nat L))
      as (ps & a & m & E & Hlen & Hwf' & Hinv' & Es & El & Ecc & Ecur);
      [.. | exact Hwf | exact Hinv | | | | |]; auto; try (cbn; lia).
    cbn in Ecc. exists ps, a, m. split_and!; auto.
    + destruct Hinv' as [_ _ _ _ _ Hlim]. destruct Hlim as [? Hcount]; lia.
    + assert (cursor a = C) as Ecur'.
      { destruct (Z.to_nat L) eqn:EL; [lia | assumption]. }
      rewrite alloc_overflow
        by (rewrite Ecur', Es, wrap64_id by int64_range; lia).
      rewrite Ecur', El. replace (C + C) with (2 * C) by lia.
      rewrite (wrap64_id (2 * C)) by int64_range.
      destruct (Z.eqb_spec L 0); [lia |].
      destruct (Z.geb_spec (chunkCursor a) L); [| lia]. reflexivity.
Qed.

Lemma C4_limit_fault_witness :
  Z.of_nat (length (chunks (mkArena 100 1 60 0 0%nat [0%nat]))) = 1
  /\ last (chunks (mkArena 100 1 60 0 0%nat [0%nat])) =
       Some (current (mkArena 100 1 60 0 0%nat [0%nat]))
  /\ alloc 1 60 (mkArena 100 1 60 0 0%nat [0%nat]) [replicate 100 zero_byte] =
       Some (Ok (Ptr (current (mkArena 100 1 60 0 0%nat [0%nat])) 0),
             set_chunkCursor 1 (set_cursor 60 (mkArena 100 1 60 0 0%nat [0%nat])),
             [replicate 100 zero_byte]).
Proof.
  assert (H1 : 0 < 1) by lia.
  assert (H2 : in_int64 1) by (vm_compute; split; discriminate).
  assert (H3 : 100 <= int64_max) by (vm_compute; discriminate).
  assert (H4 : Create 100 [WithLimit 1] [] =
               (Ok (mkArena 100 1 0 0 0%nat [0%nat]), [replicate 100 zero_byte]))
    by reflexivity.
  assert (H5 : steps 1 (mkArena 100 1 0 0 0%nat [0%nat]) [replicate 100 zero_byte]
                 (mkArena 100 1 60 0 0%nat [0%nat]) [replicate 100 zero_byte]).
  { eapply steps_S; [apply steps_O |]. run_alloc 1%nat 60. }
  assert (H6 : chunkCursor (mkArena 100 1 60 0 0%nat [0%nat]) = 1 - 1) by reflexivity.
  assert (H7 : 0 < 60 <= 100) by lia.
  assert (H8 : 100 <= wrap64 (cursor (mkArena 100 1 60 0 0%nat [0%nat]) + 60))
    by (vm_compute; discriminate).
  exact (proj1 (proj2 (C4_limit_fault 100 1 [] _ _ H1 H2 H3 H4))
           1%nat _ _ 0%nat 60 H5 H6 H7 H8).
Defined.

(** The failing input of C4, evaluated: with [L = 1] and 100-byte chunks, a
    first object of 60 bytes leaves 40 bytes in the only chunk the limit
    allows; a second object of 60 bytes needs a second chunk, and yet the
    allocation does not fault: it returns the address of the first object.
    And in the run of the repository's own test of the limit ([L = 2],
    chunks of the size of the object), the second object is placed on the
    first. *)
Example limited_arena_aliases :
  (exists a0 m0 a1 m1 a2 m2,
     Create 100 [WithLimit 1] [] = (Ok a0, m0)
     /\ alloc 1 60 a0 m0 = Some (Ok (Ptr 0%nat 0), a1, m1)
     /\ Z.of_nat (length (chunks a1)) = 1
     /\ chunkSize a1 < cursor a1 + 60
     /\ alloc 1 60 a1 m1 = Some (Ok (Ptr 0%nat 0), a2, m2)
     /\ Z.of_nat (length (chunks a2)) = 1)
  /\ (exists a0 m0 a1 m1 a2 m2 a3 m3,
        Create 8 [WithLimit 2] [] = (Ok a0, m0)
        /\ alloc 1 8 a0 m0 = Some (Ok (Ptr 1%nat 0), a1, m1)
        /\ alloc 1 8 a1 m1 = Some (Ok (Ptr 1%nat 0), a2, m2)
        /\ alloc 1 8 a2 m2 = Some (Panic CapacityExceeded, a3, m3)
        /\ Z.of_nat (length (chunks a3)) = 2).
Proof.
  split.
  - do 6 eexists. run_conj.
  - do 8 eexists. run_conj.
Qed.

(** ** An arena without a limit *)

Lemma zero_chunks_length l m : length (foldl zero_chunk m l) = length m.
Proof.
  revert m. induction l as [| b l IH]; intros m; cbn; [reflexivity |].
  rewrite IH. apply zero_chunk_length.
Qed.

Lemma unlimited_step c0 a m a' m' :
  limit a = 0 -> chunks a = [c0] -> current a = c0 ->
  step a m a' m' ->
  chunks a' = [c0] /\ current a' = c0 /\ length m' = length m.
Proof.
  intros El Ech Ecur Hstep. inversion Hstep; subst.
  - destruct f as [| f]; [discriminate |].
    match goal with H : alloc _ _ _ _ = _ |- _ => apply alloc_spec in H; rename H into Hs end.
    destruct Hs as [(_ & -> & -> & _) | [(_ & _ & _ & _ & -> & ->) | (_ & _ & Hroll)]]; auto.
    apply rollover_spec in Hroll.
    destruct Hroll as [(_ & -> & -> & _) | (a1 & Hcs & -> & _)]; auto.
    destruct a as [C L c cc cur chs]. cbn in *. subst.
    inversion Hcs; subst; cbn in *; auto; lia.
  - match goal with H : Reset _ _ = _ |- _ => rename H into Hr end.
    rewrite (Reset_eq _ _ _ _ Ech) in Hr. simplify_eq. cbn.
    rewrite Ech. split_and!; auto. apply zero_chunks_length.
  - split_and!; auto. eapply store_length. eassumption.
Qed.

Lemma unlimited_steps c0 k a m a' m' :
  limit a = 0 -> chunks a = [c0] -> current a = c0 ->
  steps k a m a' m' ->
  chunks a' = [c0] /\ current a' = c0 /\ length m' = length m.
Proof.
  intros El Ech Ecur Hsteps.
  induction Hsteps as [| k a m a1 m1 a2 m2 Hsteps IH Hstep]; [auto |].
  destruct IH as (Ech1 & Ecur1 & Elen1); auto.
  pose proof (steps_static _ _ _ _ _ Hsteps) as [_ El1].
  destruct (unlimited_step c0 a1 m1 a2 m2) as (? & ? & ?); auto; [congruence |].
  split_and!; auto. congruence.
Qed.

(** C1 (what the code does instead): an arena created without a limit
    never provisions a chunk.  Whatever is allocated from it, its chunk list
    is the one chunk [Create] made and the heap holds no new block; an
    allocation that overflows the active chunk rolls over onto that same
    chunk and returns its offset 0 again. *)
Theorem C1_unlimited_arena_never_grows C ls m0 a0 m1 k a m :
  final_limit ls = 0 ->
  C <= int64_max ->
  Create C (map WithLimit ls) m0 = (Ok a0, m1) ->
  steps k a0 m1 a m ->
  chunks a = [length m0] /\ current a = length m0 /\ length m = length m1
  /\ forall f n,
       0 < n <= C -> C <= wrap64 (cursor a + n) ->
       0 <= chunkCursor a < int64_max ->
       exists a',
         alloc (S f) n a m = Some (Ok (Ptr (length m0) 0), a', m)
         /\ chunks a' = [length m0] /\ current a' = length m0.
Proof.
  intros Hfl HCmax HC Hsteps.
  pose proof (Create_wf _ _ _ _ _ HCmax HC) as Hwf0.
  pose proof (steps_wf _ _ _ _ _ _ Hwf0 Hsteps) as Hwf.
  pose proof (steps_static _ _ _ _ _ Hsteps) as [Es El].
  apply Create_inv in HC as (HC0 & -> & ->). cbn in Es, El.
  rewrite Hfl in Hsteps.
  edestruct (unlimited_steps (length m0)) as (Ech & Ecur & Elen);
    [| | | exact Hsteps |]; [reflexivity ..|].
  rewrite Hfl in El.
  split_and!; auto.
  intros f n Hn Hover Hcc.
  assert (Hinv : index_inv (Z.to_nat (chunkCursor a)) a).
  { constructor; rewrite ?Ech, ?Ecur; cbn; try lia; auto. }
  destruct (alloc_rollover_ok _ _ f n a m Hwf Hinv) as (a' & m' & E & _ & _);
    try lia.
  destruct (alloc_chunks _ _ _ _ _ _ _ _ Hinv E) as [(E1 & E2 & ->) | (_ & _ & _ & Hlt)].
  - exists a'. rewrite E2, Ecur in E. split_and!; congruence.
  - rewrite Ech in Hlt. cbn in Hlt. lia.
Qed.

Lemma C1_unlimited_arena_never_grows_witness :
  let a := mkArena 100 0 60 0 0%nat [0%nat] in
  let m := [replicate 100 zero_byte] in
  chunks a = [0%nat] /\ current a = 0%nat /\ length m = 1%nat
  /\ forall f n,
       0 < n <= 100 -> 100 <= wrap64 (cursor a + n) ->
       0 <= chunkCursor a < int64_max ->
       exists a',
         alloc (S f) n a m = Some (Ok (Ptr 0%nat 0), a', m)
         /\ chunks a' = [0%nat] /\ current a' = 0%nat.
Proof.
  apply (C1_unlimited_arena_never_grows 100 [] [] (mkArena 100 0 0 0 0%nat [0%nat])
           [replicate 100 zero_byte] 1).
  - reflexivity.
  - vm_compute. discriminate.
  - reflexivity.
  - eapply steps_S; [apply steps_O |]. run_alloc 1%nat 60.
Defined.

(** The failing run of C1, evaluated: two 60-byte objects from an arena of
    100-byte chunks without a limit occupy the same bytes. *)
Example unlimited_arena_aliases :
  exists a0 m0 a1 m1 a2 m2,
    Create 100 [] [] = (Ok a0, m0)
    /\ alloc 1 60 a0 m0 = Some (Ok (Ptr 0%nat 0), a1, m1)
    /\ alloc 1 60 a1 m1 = Some (Ok (Ptr 0%nat 0), a2, m2)
    /\ chunks a2 = [0%nat] /\ chunkCursor a2 = 1 /\ length m2 = 1%nat.
Proof.
  do 6 eexists. run_conj.
Qed.

(** * The fast path (C2, C8) *)

Lemma alloc_fast_ok f n a m :
  0 < n -> 0 <= cursor a -> cursor a + n < chunkSize a ->
  chunkSize a <= int64_max ->
  chunkSize a <= cap_of m (current a) ->
  alloc (S f) n a m =
    Some (Ok (Ptr (current a) (cursor a)), set_cursor (cursor a + n) a, m).
Proof.
  intros Hn Hc Hfit Hmax Hcap.
  assert (Hw : wrap64 (cursor a + n) = cursor a + n) by (apply wrap64_id; int64_range).
  rewrite alloc_fast by lia. rewrite Hw.
  replace (cursor a + n - n) with (cursor a) by lia.
  rewrite wrap64_id by int64_range.
  apply slice_addr_in_bounds; lia.
Qed.

(** C2 (amended): an allocation of [n > 0] bytes whose post-add cursor value
    [end] is strictly below [chunkSize] succeeds on the fast path: it returns
    the range [[end-n, end)] of the active chunk and changes nothing but the
    cursor.  When [end] reaches [chunkSize] the allocation is handed to
    [resize], also when [end = chunkSize]. *)
Theorem C2_fast_path f n a m :
  0 < n -> 0 <= cursor a ->
  chunkSize a <= int64_max ->
  chunkSize a <= cap_of m (current a) ->
  (cursor a + n < chunkSize a ->
   alloc (S f) n a m =
     Some (Ok (Ptr (current a) (cursor a + n - n)), set_cursor (cursor a + n) a, m))
  /\ (chunkSize a <= cursor a + n <= int64_max ->
      alloc (S f) n a m =
        resize (alloc f n) n (cursor a + n) (set_cursor (cursor a + n) a) m).
Proof.
  intros Hn Hc Hmax Hcap. split.
  - intros Hfit. replace (cursor a + n - n) with (cursor a) by lia.
    apply alloc_fast_ok; assumption.
  - intros Hover.
    assert (Hw : wrap64 (cursor a + n) = cursor a + n) by (apply wrap64_id; int64_range).
    rewrite alloc_slow by lia. rewrite Hw. reflexivity.
Qed.

Lemma C2_fast_path_witness :
  let a := mkArena 100 0 0 0 0%nat [0%nat] in
  let m := [replicate 100 zero_byte] in
  (0 + 99 < 100 ->
   alloc 1 99 a m = Some (Ok (Ptr 0%nat (0 + 99 - 99)), set_cursor (0 + 99) a, m))
  /\ (100 <= 0 + 99 <= int64_max ->
      alloc 1 99 a m = resize (alloc 0 99) 99 (0 + 99) (set_cursor (0 + 99) a) m).
Proof.
  apply (C2_fast_path 0 99 (mkArena 100 0 0 0 0%nat [0%nat]) [replicate 100 zero_byte]).
  - lia.
  - vm_compute. discriminate.
  - vm_compute. discriminate.
  - vm_compute. discriminate.
Defined.

(** C2 as stated fails when [end = chunkSize]: on a fresh arena of 100-byte
    chunks a 100-byte allocation goes through the expansion.  Without a limit
    the chunk index advances to 1; with a limit of 2 a second chunk is
    provisioned and the object is placed there, not in the range [[0, 100)]
    of the chunk that was active. *)
Lemma C2_counterexample :
  let a := mkArena 100 0 0 0 0%nat [0%nat] in
  let b := mkArena 100 2 0 0 0%nat [0%nat] in
  let m := [replicate 100 zero_byte] in
  Create 100 [] [] = (Ok a, m)
  /\ Create 100 [WithLimit 2] [] = (Ok b, m)
  /\ 0 < 100 <= chunkSize a /\ cursor a + 100 <= chunkSize a
  /\ alloc 1 100 a m <> Some (Ok (Ptr 0%nat 0), set_cursor 100 a, m)
  /\ alloc 1 100 a m = Some (Ok (Ptr 0%nat 0), mkArena 100 0 100 1 0%nat [0%nat], m)
  /\ alloc 1 100 b m =
       Some (Ok (Ptr 1%nat 0), mkArena 100 2 100 1 1%nat [0%nat; 1%nat],
             m ++ [replicate 100 zero_byte]).
Proof.
  cbv zeta. split_and!; try (vm_compute; reflexivity); try (cbn; lia).
  vm_compute. discriminate.
Qed.

(** * Sizes outside [0 < n <= chunkSize] (C3) *)

Lemma wrap64_over z :
  int64_max < z <= 2 * int64_max + 1 -> wrap64 z = z - 2 ^ 64.
Proof.
  unfold int64_max, wrap64. intros H.
  replace (z + 2 ^ 63) with (z + 2 ^ 63 - 2 ^ 64 + 1 * 2 ^ 64) by lia.
  rewrite Z.mod_add by lia. rewrite Z.mod_small; lia.
Qed.



(** On the fast path a size outside the range never gets a pointer. *)
Lemma fast_path_rejects n a p a' m' :
  in_int64 (cursor a) -> in_int64 n -> 0 <= chunkSize a ->
  ~ (0 < n <= chunkSize a) ->
  wrap64 (cursor a + n) < chunkSize a ->
  slice_addr (current a) (wrap64 (wrap64 (cursor a + n) - n))
    (wrap64 (cursor a + n)) a' m' <> Some (Ok p, a', m').
Proof.
  intros Hc Hn HC Hbad Hfast H.
  rewrite wrap64_sub_add in H by assumption.
  apply slice_addr_ok in H as (_ & H0 & Hlt & _).
  destruct (Z.le_gt_cases n 0) as [Hneg | Hpos].
  - rewrite wrap64_id in Hlt by int64_range. lia.
  - destruct (Z.le_gt_cases (cursor a + n) int64_max) as [Hin | Hout].
    + rewrite wrap64_id in Hfast by int64_range. lia.
    + rewrite wrap64_over in Hlt by int64_range. int64_range.
Qed.

(** C3 (amended): a size outside [0 < n <= chunkSize] always makes the
    allocation fault, but the kind of the fault depends on the size and on
    the limit.  For [n > chunkSize] (with a cursor that is not negative and a
    sum that fits an [int64]) it is ObjectTooLarge, raised in the expansion
    step, unless a limit is set and the chunk index has reached it: the
    limit is checked first and the fault is then CapacityExceeded.  For
    [n <= 0] it is never ObjectTooLarge: the bounds checks of the runtime
    fail, or the limit check does. *)
Theorem C3_invalid_size_faults c0 f n a m :
  wf c0 a m -> 0 <= chunkCursor a -> in_int64 n ->
  ~ (0 < n <= chunkSize a) ->
  exists e a' m',
    alloc (S f) n a m = Some (Panic e, a', m')
    /\ (n <= 0 -> e = RuntimeError \/ e = CapacityExceeded)
    /\ (chunkSize a < n -> 0 <= cursor a -> cursor a + n <= int64_max ->
        e = if negb (limit a =? 0) && (chunkCursor a >=? limit a)
            then CapacityExceeded else ObjectTooLarge).
Proof.
  intros Hwf Hcc Hn Hbad.
  pose proof Hwf as [Hs _ _ _ Hcur].
  destruct (alloc_returns f n a m) as [[[o a'] m'] E].
  pose proof E as Hspec. apply alloc_spec in Hspec. cbv zeta in Hspec.
  destruct Hspec as [(Hfast & -> & -> & H) | [(Hover & Hl0 & Hl & -> & -> & ->) | (Hover & Hroom & H)]].
  - (* fast path *)
    destruct (slice_addr_outcome _ _ _ _ _ _ _ _ H) as [-> | ->].
    + exfalso. eapply (fast_path_rejects n a); [.. | exact H]; auto. lia.
    + eexists _, _, _. split; [exact E |]. split; [auto |].
      intros Hbig Hc0 Hsum. rewrite wrap64_id in Hfast by int64_range. lia.
  - (* the limit check *)
    eexists _, _, _. split; [exact E |]. split; [auto |].
    intros _ _ _.
    destruct (Z.eqb_spec (limit a) 0); [lia |].
    destruct (Z.geb_spec (chunkCursor a) (limit a)); [reflexivity | lia].
  - (* the rollover *)
    assert (Hcond : negb (limit a =? 0) && (chunkCursor a >=? limit a) = false).
    { destruct (Z.eqb_spec (limit a) 0); [reflexivity |].
      destruct (Z.geb_spec (chunkCursor a) (limit a)); [lia | reflexivity]. }
    rewrite Hcond.
    apply rollover_spec in H.
    destruct H as [(_ & _ & _ & Hneg) | (a1 & Hstep & -> & H)].
    { cbn in Hneg. lia. }
    pose proof (chunk_step_static _ _ _ _ Hstep) as [Es _]. cbn in Es.
    rewrite Es in H.
    destruct (Z.gtb_spec n (chunkSize a)) as [Hbig | Hsmall].
    + subst o. eexists _, _, _. split; [exact E |]. split; [lia | auto].
    + destruct (slice_addr_outcome _ _ _ _ _ _ _ _ H) as [-> | ->].
      * apply slice_addr_ok in H. lia.
      * eexists _, _, _. split; [exact E |]. split; [auto | lia].
Qed.

Lemma C3_invalid_size_faults_witness :
  exists e a' m',
    alloc 1 72 (mkArena 4 0 0 0 0%nat [0%nat]) [replicate 4 zero_byte]
      = Some (Panic e, a', m')
    /\ (72 <= 0 -> e = RuntimeError \/ e = CapacityExceeded)
    /\ (4 < 72 -> 0 <= 0 -> 0 + 72 <= int64_max ->
        e = if negb (0 =? 0) && (0 >=? 0) then CapacityExceeded else ObjectTooLarge).
Proof.
  apply (C3_invalid_size_faults 0%nat 0 72 (mkArena 4 0 0 0 0%nat [0%nat])
           [replicate 4 zero_byte]).
  - constructor; cbn.
    + vm_compute. split; discriminate.
    + reflexivity.
    + apply list_elem_of_here.
    + constructor; [| constructor]. exists (replicate 4 zero_byte). split; reflexivity.
    + vm_compute. split; discriminate.
  - cbn. lia.
  - vm_compute. split; discriminate.
  - cbn. lia.
Defined.

(** C3 as stated fails: a size of 0 is stopped by the bounds check of the
    fast path, and an oversized object asked of an arena that has reached its
    limit is stopped by the limit check; neither fault is ObjectTooLarge. *)
Lemma C3_counterexample :
  exists a0 m0 a1 m1 a2 m2 b0 b1 b2 n1 n2,
    Create 4 [] [] = (Ok a0, m0)
    /\ alloc 1 0 a0 m0 = Some (Panic RuntimeError, a1, m1)
    /\ alloc 1 (-3) a0 m0 = Some (Panic RuntimeError, a2, m2)
    /\ Create 4 [WithLimit 1] [] = (Ok b0, m0)
    /\ alloc 1 4 b0 m0 = Some (Ok (Ptr 0%nat 0), b1, n1)
    /\ chunkSize b1 < 72
    /\ alloc 1 72 b1 n1 = Some (Panic CapacityExceeded, b2, n2).
Proof.
  do 11 eexists. run_conj.
Qed.



Lemma offsets_length c ns : length (offsets c ns) = length ns.
Proof. revert c. induction ns; intros c; cbn; auto. Qed.





(** * [Reset] (C5) *)

Lemma Reset_zeroes c0 a m b :
  wf c0 a m -> b ∈ chunks a ->
  foldl zero_chunk m (chunks a) !! b =
    Some (replicate (Z.to_nat (chunkSize a)) zero_byte).
Proof.
  intros Hwf Hin. destruct Hwf as [_ _ _ Hb _].
  rewrite Forall_forall in Hb. destruct (Hb b Hin) as (bs & E & Hlen).
  rewrite (zero_chunks_lookup _ _ _ _ E), decide_True by assumption.
  do 2 f_equal. lia.
Qed.

Lemma load_zeros m b C n :
  m !! b = Some (replicate (Z.to_nat C) zero_byte) ->
  0 <= n <= C ->
  load m (Ptr b 0) n = Some (replicate (Z.to_nat n) zero_byte).
Proof.
  intros E Hn. rewrite (load_in_block _ _ _ _ _ E); rewrite ?length_replicate; try lia.
  change (Z.to_nat 0) with 0%nat. rewrite drop_0, take_replicate.
  do 2 f_equal. lia.
Qed.

(** C5 (amended): a [Reset] of an arena that allocations, writes of the
    caller and earlier [Reset]s have brought to any state returns, leaves
    the cursor and the chunk index at 0 and the chunk list with exactly one
    chunk, the first chunk the arena already owned, and every chunk the
    arena owned before reads as zero.  Consequently the first object
    allocated after the [Reset] is all-zero, whatever its size within
    [0 < n <= chunkSize]: its allocation returns, unless the object has
    exactly [chunkSize] bytes and the limit is negative, and every byte of
    the range it returns is zero, on the fast path and through a rollover
    alike.  An object smaller than [chunkSize] lies at offset 0 of the first
    chunk, the address of the first such object allocated from the fresh
    arena. *)
Theorem C5_reset C ls m0 a0 m1 k a m :
  C <= int64_max ->
  Create C (map WithLimit ls) m0 = (Ok a0, m1) ->
  steps k a0 m1 a m ->
  exists a' m',
    Reset a m = Some (Ok tt, a', m')
    /\ cursor a' = 0 /\ chunkCursor a' = 0
    /\ head (chunks a) = Some (length m0)
    /\ chunks a' = [length m0] /\ current a' = length m0
    /\ (forall b, b ∈ chunks a ->
          m' !! b = Some (replicate (Z.to_nat C) zero_byte))
    /\ (forall f n,
          0 < n <= C ->
          (n < C \/ 0 <= final_limit ls ->
           exists p a'' m'', alloc (S f) n a' m' = Some (Ok p, a'', m''))
          /\ forall p a'' m'',
               alloc (S f) n a' m' = Some (Ok p, a'', m'') ->
               load m'' p n = Some (replicate (Z.to_nat n) zero_byte))
    /\ forall f n1 n2,
         0 < n1 < C -> 0 < n2 < C ->
         alloc (S f) n1 a0 m1 =
           Some (Ok (Ptr (length m0) 0), set_cursor n1 a0, m1)
         /\ alloc (S f) n2 a' m' =
              Some (Ok (Ptr (length m0) 0), set_cursor n2 a', m')
         /\ load m' (Ptr (length m0) 0) n2 =
              Some (replicate (Z.to_nat n2) zero_byte).
Proof.
  intros HCmax HC Hsteps.
  pose proof (Create_wf _ _ _ _ _ HCmax HC) as Hwf0.
  pose proof (steps_wf _ _ _ _ _ _ Hwf0 Hsteps) as Hwf.
  pose proof (steps_static _ _ _ _ _ Hsteps) as [Es El].
  pose proof (wf_current_cap _ _ _ Hwf0) as Hcap0.
  apply Create_inv in HC as (HC0 & -> & ->). cbn in Es, El, Hcap0.
  pose proof Hwf as [_ Hf _ _ _].
  destruct (chunks a) as [| c rest] eqn:Ech; [discriminate |].
  cbn in Hf. simplify_eq.
  set (a' := mkArena (chunkSize a) (limit a) 0 0 (length m0) [length m0]).
  set (m' := foldl zero_chunk m (length m0 :: rest)).
  assert (HR : Reset a m = Some (Ok tt, a', m')).
  { rewrite (Reset_eq _ _ _ _ Ech), Ech. reflexivity. }
  exists a', m'.
  split; [exact HR |].
  assert (Hz : forall b, b ∈ length m0 :: rest ->
               m' !! b = Some (replicate (Z.to_nat (chunkSize a)) zero_byte)).
  { intros b Hb. rewrite <- Ech in Hb.
    pose proof (Reset_zeroes _ _ _ _ Hwf Hb) as Hr. rewrite Ech in Hr. exact Hr. }
  pose proof (Hz (length m0) (list_elem_of_here _ _)) as Hz0.
  assert (Hcap' : cap_of m' (length m0) = chunkSize a).
  { unfold cap_of. rewrite Hz0, length_replicate. lia. }
  do 5 (split; [reflexivity |]). split; [exact Hz |]. split.
  - intros f n Hn.
    pose proof (Reset_wf _ _ _ _ _ _ Hwf HR) as Hwf'.
    assert (Hinv' : index_inv 0 a').
    { constructor; cbn; try lia; auto. }
    assert (Hzero : forall p a'' m'',
              alloc (S f) n a' m' = Some (Ok p, a'', m'') ->
              load m'' p n = Some (replicate (Z.to_nat n) zero_byte)).
    { intros p a'' m'' E.
      destruct (Z.lt_ge_cases n (chunkSize a)) as [Hlt | Hge].
      - rewrite alloc_fast_ok in E; cbn [cursor chunkSize current a']; try lia.
        simplify_eq. eapply (load_zeros _ _ (chunkSize a)); [exact Hz0 | lia].
      - assert (n = chunkSize a) as -> by lia.
        pose proof E as E2. apply alloc_spec in E2. cbv zeta in E2.
        cbn [cursor chunkSize a'] in E2.
        rewrite Z.add_0_l, wrap64_id in E2 by int64_range.
        destruct E2 as [(? & _) | [(_ & _ & _ & ? & _) | (_ & _ & E2)]];
          [lia | discriminate |].
        apply rollover_spec in E2.
        destruct E2 as [(? & _) | (a1 & _ & Ea & E2)]; [discriminate |].
        destruct (chunkSize a >? chunkSize a1); [discriminate |].
        apply slice_addr_ok in E2 as (-> & _).
        assert (Ecur1 : current a1 = current a'') by (rewrite Ea; reflexivity).
        rewrite Ecur1.
        destruct (alloc_chunks _ _ _ _ _ _ _ _ Hinv' E)
          as [(_ & Ecur & ->) | (_ & Ecur & -> & _)]; rewrite Ecur.
        + cbn [current a'].
          eapply (load_zeros _ _ (chunkSize a)); [exact Hz0 | lia].
        + cbn [chunkSize a'].
          eapply (load_zeros _ _ (chunkSize a)); [| lia].
          rewrite lookup_app_r by lia. rewrite Nat.sub_diag. reflexivity. }
    split; [| exact Hzero].
    intros Hret.
    destruct (Z.lt_ge_cases n (chunkSize a)) as [Hlt | Hge].
    + eexists _, _, _. apply alloc_fast_ok; cbn [cursor chunkSize current a']; lia.
    + destruct Hret as [? | Hlim]; [lia |].
      destruct (alloc_rollover_ok (length m0) 0 f n a' m' Hwf' Hinv')
        as (a'' & m'' & E & _); cbn [cursor chunkSize limit chunkCursor a'].
      * rewrite Z.add_0_l, wrap64_id by int64_range. lia.
      * rewrite El. lia.
      * lia.
      * vm_compute. reflexivity.
      * eauto.
  - intros f n1 n2 Hn1 Hn2.
    split; [| split].
    + rewrite alloc_fast_ok; cbn [cursor chunkSize current]; auto; lia.
    + rewrite alloc_fast_ok; cbn [cursor chunkSize current a']; auto; lia.
    + eapply load_zeros; [exact Hz0 | lia].
Qed.

Lemma C5_reset_witness :
  exists a' m',
    Reset (mkArena 100 0 72 0 0%nat [0%nat])
      [replicate 72 Byte.x2a ++ replicate 28 zero_byte] = Some (Ok tt, a', m')
    /\ cursor a' = 0 /\ chunkCursor a' = 0
    /\ head [0%nat] = Some 0%nat
    /\ chunks a' = [0%nat] /\ current a' = 0%nat
    /\ (forall b, b ∈ [0%nat] ->
          m' !! b = Some (replicate (Z.to_nat 100) zero_byte))
    /\ (forall f n,
          0 < n <= 100 ->
          (n < 100 \/ 0 <= final_limit [] ->
           exists p a'' m'', alloc (S f) n a' m' = Some (Ok p, a'', m''))
          /\ forall p a'' m'',
               alloc (S f) n a' m' = Some (Ok p, a'', m'') ->
               load m'' p n = Some (replicate (Z.to_nat n) zero_byte))
    /\ forall f n1 n2,
         0 < n1 < 100 -> 0 < n2 < 100 ->
         alloc (S f) n1 (mkArena 100 0 0 0 0%nat [0%nat]) [replicate 100 zero_byte] =
           Some (Ok (Ptr 0%nat 0), set_cursor n1 (mkArena 100 0 0 0 0%nat [0%nat]),
                 [replicate 100 zero_byte])
         /\ alloc (S f) n2 a' m' = Some (Ok (Ptr 0%nat 0), set_cursor n2 a', m')
         /\ load m' (Ptr 0%nat 0) n2 = Some (replicate (Z.to_nat n2) zero_byte).
Proof.
  apply (C5_reset 100 [] [] (mkArena 100 0 0 0 0%nat [0%nat])
           [replicate 100 zero_byte] 2).
  - vm_compute. discriminate.
  - reflexivity.
  - eapply steps_S; [eapply steps_S; [apply steps_O |] |].
    + run_alloc 1%nat 72.
    + eapply (step_write (Ptr 0%nat 0) (replicate 72 Byte.x2a)).
      vm_compute. reflexivity.
Defined.

(** C5 as stated fails for an object of exactly [chunkSize] bytes in an
    arena that may grow: every such allocation goes through an expansion
    that provisions a chunk, so the first object after the [Reset] lies in a
    chunk made after it, not at the address of the first object allocated
    before. *)
Lemma C5_counterexample :
  exists a0 m0 a1 m1 a2 m2 a3 m3,
    Create 8 [WithLimit 2] [] = (Ok a0, m0)
    /\ alloc 1 8 a0 m0 = Some (Ok (Ptr 1%nat 0), a1, m1)
    /\ Reset a1 m1 = Some (Ok tt, a2, m2)
    /\ alloc 1 8 a2 m2 = Some (Ok (Ptr 2%nat 0), a3, m3)
    /\ Ptr 2%nat 0 <> Ptr 1%nat 0.
Proof.
  do 8 eexists. do 4 (split; [vm_compute; reflexivity |]). discriminate.
Qed.

(** * What a successful allocation returns *)

Lemma wrap64_sum_ordered c n :
  0 <= c -> in_int64 c -> in_int64 n -> c < wrap64 (c + n) ->
  wrap64 (c + n) = c + n.
Proof.
  intros H0 Hc Hn Hlt.
  destruct (Z.le_gt_cases (c + n) int64_max) as [Hin | Hout].
  - apply wrap64_id. int64_range.
  - rewrite wrap64_over in Hlt by int64_range. int64_range.
Qed.

Lemma alloc_ok_ptr c0 f n a m p a' m' :
  wf c0 a m -> in_int64 n ->
  alloc (S f) n a m = Some (Ok p, a', m') ->
  wf c0 a' m'
  /\ 0 < n
  /\ (exists off, p = Ptr (current a') off /\ 0 <= off /\ off + n <= chunkSize a')
  /\ (m' = m \/ exists blk, m' = m ++ [blk]).
Proof.
  intros Hwf Hn E.
  pose proof (alloc_wf _ _ _ _ _ _ _ _ Hwf Hn E) as Hwf'.
  pose proof (wf_current_cap _ _ _ Hwf') as Hcap'.
  split; [assumption |].
  pose proof Hwf as [_ _ _ _ Hcur].
  apply alloc_spec in E. cbv zeta in E.
  destruct E as [(Hfast & -> & -> & H) | [(_ & _ & _ & ? & _) | (_ & _ & H)]];
    [| discriminate |].
  - rewrite wrap64_sub_add in H by assumption.
    apply slice_addr_ok in H as (-> & H0 & Hlt & Hhi).
    pose proof (wrap64_sum_ordered _ _ H0 Hcur Hn Hlt) as Hw.
    cbn [current chunkSize set_cursor] in *. rewrite Hw in *.
    split; [lia |]. split; [| auto].
    exists (cursor a). split_and!; auto. lia.
  - apply rollover_spec in H.
    destruct H as [(? & _) | (a1 & Hstep & -> & H)]; [discriminate |].
    destruct (n >? chunkSize a1); [discriminate |].
    apply slice_addr_ok in H as (-> & _ & Hlt & Hhi).
    cbn [current chunkSize set_chunkCursor] in *.
    split; [lia |]. split.
    + exists 0. split_and!; auto; lia.
    + inversion Hstep; subst; eauto.
Qed.

Lemma load_after_alloc m m' p n bs :
  (m' = m \/ exists blk, m' = m ++ [blk]) ->
  load m p n = Some bs -> load m' p n = Some bs.
Proof.
  intros [-> | (blk & ->)] H; [assumption | apply load_app; assumption].
Qed.

Lemma alloc_fault_kind f n a m e a' m' :
  alloc (S f) n a m = Some (Panic e, a', m') ->
  e = ObjectTooLarge \/ e = CapacityExceeded \/ e = RuntimeError.
Proof.
  intros H. apply alloc_spec in H. cbv zeta in H.
  destruct H as [(_ & _ & _ & H) | [(_ & _ & _ & H & _) | (_ & _ & H)]].
  - apply slice_addr_outcome in H as [? | ?]; simplify_eq; auto.
  - simplify_eq; auto.
  - apply rollover_spec in H.
    destruct H as [(? & _) | (a1 & _ & _ & H)]; [simplify_eq; auto |].
    destruct (n >? chunkSize a1); [simplify_eq; auto |].
    apply slice_addr_outcome in H as [? | ?]; simplify_eq; auto.
Qed.

Lemma alloc_ok_not_null f n a m p a' m' :
  alloc (S f) n a m = Some (Ok p, a', m') -> exists b off, p = Ptr b off.
Proof.
  intros H. apply alloc_spec in H. cbv zeta in H.
  destruct H as [(_ & _ & _ & H) | [(_ & _ & _ & ? & _) | (_ & _ & H)]];
    [| discriminate |].
  - apply slice_addr_ok in H as (-> & _). eauto.
  - apply rollover_spec in H.
    destruct H as [(? & _) | (a1 & _ & _ & H)]; [discriminate |].
    destruct (n >? chunkSize a1); [discriminate |].
    apply slice_addr_ok in H as (-> & _). eauto.
Qed.



Lemma memmove_arena dst src n a m o a' m' :
  memmove dst src n a m = Some (o, a', m') -> a' = a.
Proof. unfold memmove. intros H. repeat case_match; simplify_eq; reflexivity. Qed.

(** * [String] (C9) *)

Lemma String_alloc_ok c0 f v a m bs p a1 m1 :
  wf c0 a m -> in_int64 (strlen v) ->
  load m (strdata v) (strlen v) = Some bs ->
  alloc (S f) (strlen v) a m = Some (Ok p, a1, m1) ->
  exists m',
    String (S f) v a m = Some (Ok (mkString p (strlen v)), a1, m')
    /\ store m1 p bs = Some m'
    /\ load m' p (strlen v) = Some bs.
Proof.
  intros Hwf Hn Hload E.
  destruct (alloc_ok_ptr _ _ _ _ _ _ _ _ Hwf Hn E)
    as (Hwf1 & Hpos & (off & -> & H0 & Hfit) & Hm1).
  pose proof (load_length _ _ _ _ Hload) as Hlen.
  pose proof (load_after_alloc _ _ _ _ _ Hm1 Hload) as Hload1.
  pose proof Hwf1 as [_ _ Hc Hb _]. rewrite Forall_forall in Hb.
  destruct (Hb _ Hc) as (old & Eold & Hold).
  destruct (store_in_block m1 (current a1) off bs old) as (m' & Hst & _); auto; [lia |].
  exists m'. split; [| split; [assumption |]].
  - unfold String. unfold bind at 1. rewrite E.
    unfold bind at 1.
    rewrite unsafe_Slice_ok by (unfold in_int64, int64_min, int64_max in Hn; lia).
    unfold memmove. munfold. cbn [sdata slen].
    rewrite Z.min_id, Hload1, Hst. reflexivity.
  - rewrite <- Hlen. eapply load_store_same. eassumption.
Qed.

Lemma String_alloc_panic f v a m e a1 m1 :
  alloc (S f) (strlen v) a m = Some (Panic e, a1, m1) ->
  String (S f) v a m = Some (Panic e, a1, m1).
Proof. intros E. unfold String. unfold bind at 1. rewrite E. reflexivity. Qed.




(** The string of the witness, evaluated: its bytes lie at the cursor of
    the active chunk, away from the input, which lies in another block. *)
Example String_run :
  exists m',
    String 1 (mkString (Ptr 0%nat 0) 5) (mkArena 100 0 0 0 1%nat [1%nat])
      [hello; replicate 100 zero_byte] =
      Some (Ok (mkString (Ptr 1%nat 0) 5), mkArena 100 0 5 0 1%nat [1%nat], m')
    /\ load m' (Ptr 1%nat 0) 5 = Some hello
    /\ stored_before (mkArena 100 0 0 0 1%nat [1%nat])
         [hello; replicate 100 zero_byte] (Ptr 0%nat 0) 5.
Proof.
  eexists. split; [vm_compute; reflexivity |]. split; [vm_compute; reflexivity |].
  cbn. split; [lia | intros [=]].
Qed.


(** Outside the last condition of C9 the result may be the input.  A
    rollover in an arena that cannot provision a chunk returns offset 0 of
    the active chunk (see C1): in an arena of 8-byte chunks without a limit
    the copy of a five-byte string that is itself in the arena is placed on
    the string. *)
Example String_rollover_keeps_address :
  exists a0 m0 s1 a1 m1 s2 a2 m2,
    Create 8 [] [hello] = (Ok a0, m0)
    /\ String 1 (mkString (Ptr 0%nat 0) 5) a0 m0 = Some (Ok s1, a1, m1)
    /\ String 1 s1 a1 m1 = Some (Ok s2, a2, m2)
    /\ strdata s2 = strdata s1
    /\ chunkCursor a2 = chunkCursor a1 + 1
    /\ chunks a2 = chunks a1.
Proof.
  do 8 eexists. run_conj.
Qed.

(** * The capacity loop of [growSlice] (C6) *)

Lemma grow_stop f newLen c :
  newLen < c -> grow_capacity (S f) newLen c = Some c.
Proof.
  intros H. cbn [grow_capacity].
  destruct (Z.geb_spec newLen c); [lia | reflexivity].
Qed.

Lemma grow_step f newLen c :
  c <= newLen ->
  grow_capacity (S f) newLen c = grow_capacity f newLen (wrap64 (c * 2)).
Proof.
  intros H. cbn [grow_capacity].
  destruct (Z.geb_spec newLen c); [reflexivity | lia].
Qed.

Lemma grow_zero f newLen : 0 <= newLen -> grow_capacity f newLen 0 = None.
Proof.
  intros H. induction f as [| f IH]; [reflexivity |].
  rewrite grow_step by assumption. exact IH.
Qed.

Lemma grow_never newLen c c' :
  (c <=? newLen) = true -> wrap64 (c * 2) = c' ->
  (forall f, grow_capacity f newLen c' = None) ->
  forall f, grow_capacity f newLen c = None.
Proof.
  intros Hle <- Hnext [| f]; [reflexivity |].
  rewrite grow_step by (apply Z.leb_le; assumption). apply Hnext.
Qed.

Lemma grow_terminates (d : nat) : forall cap newLen,
  0 < cap -> newLen < 2 ^ 62 ->
  (Z.to_nat (newLen - cap + 1) <= d)%nat ->
  exists k : nat,
    (forall f, (k < f)%nat -> grow_capacity f newLen cap = Some (cap * 2 ^ Z.of_nat k))
    /\ (forall f, (f <= k)%nat -> grow_capacity f newLen cap = None)
    /\ newLen < cap * 2 ^ Z.of_nat k
    /\ (forall j : nat, (j < k)%nat -> cap * 2 ^ Z.of_nat j <= newLen).
Proof.
  induction d as [| d IH]; intros cap newLen Hcap Hlen Hd.
  - exists 0%nat. change (2 ^ Z.of_nat 0) with 1. rewrite Z.mul_1_r.
    split_and!; try lia.
    + intros [| f] Hf; [lia |]. apply grow_stop. lia.
    + intros f Hf. replace f with 0%nat by lia. reflexivity.
  - destruct (Z.lt_ge_cases newLen cap) as [Hlt | Hge].
    + exists 0%nat. change (2 ^ Z.of_nat 0) with 1. rewrite Z.mul_1_r.
      split_and!; try lia.
      * intros [| f] Hf; [lia |]. apply grow_stop. lia.
      * intros f Hf. replace f with 0%nat by lia. reflexivity.
    + assert (Hw : wrap64 (cap * 2) = cap * 2) by (apply wrap64_id; int64_range).
      destruct (IH (cap * 2) newLen) as (k & Hsome & Hnone & Hgt & Hle); try lia.
      exists (S k).
      assert (Hpow : forall j : nat, cap * 2 * 2 ^ Z.of_nat j = cap * 2 ^ Z.of_nat (S j)).
      { intros j. rewrite Nat2Z.inj_succ, Z.pow_succ_r by lia. lia. }
      split_and!.
      * intros [| f] Hf; [lia |]. rewrite grow_step, Hw by lia.
        rewrite <- Hpow. apply Hsome. lia.
      * intros [| f] Hf; [reflexivity |]. rewrite grow_step, Hw by lia.
        apply Hnone. lia.
      * rewrite <- Hpow. assumption.
      * intros [| j] Hj.
        -- change (2 ^ Z.of_nat 0) with 1. lia.
        -- rewrite <- Hpow. apply Hle. lia.
Qed.

Lemma Append_zero_capacity sz f s elements a m :
  scap s = 0 -> 0 <= slen s -> 0 < slen elements ->
  slen s + slen elements <= int64_max ->
  Append sz f s elements a m = None.
Proof.
  intros Hcap Hlen Hel Hsum. unfold Append, growSlice. rewrite Hcap.
  rewrite wrap64_id by int64_range.
  destruct (Z.geb_spec 0 (slen s + slen elements)); [lia |].
  rewrite grow_zero by lia. reflexivity.
Qed.

(** C6 (amended): for a required new length below [2^62], the doubling loop
    started from a capacity that is not zero stops after [k] doublings, where
    [k] is the least number such that the capacity times [2^k] strictly
    exceeds the new length, and yields that product: with more than [k]
    units of fuel the loop returns it, with [k] or fewer it is still
    running.  Started from capacity zero the loop never stops, and the
    [Append] that runs it never returns. *)
Theorem C6_capacity_doubling cap newLen :
  0 <= cap -> 0 <= newLen < 2 ^ 62 ->
  (0 < cap ->
   exists k : nat,
     (forall f, (k < f)%nat ->
        grow_capacity f newLen cap = Some (cap * 2 ^ Z.of_nat k))
     /\ (forall f, (f <= k)%nat -> grow_capacity f newLen cap = None)
     /\ newLen < cap * 2 ^ Z.of_nat k
     /\ (forall j : nat, (j < k)%nat -> cap * 2 ^ Z.of_nat j <= newLen))
  /\ (cap = 0 ->
      (forall f, grow_capacity f newLen cap = None)
      /\ forall sz f s elements a m,
           scap s = cap -> 0 <= slen s -> 0 < slen elements ->
           slen s + slen elements = newLen ->
           Append sz f s elements a m = None).
Proof.
  intros Hcap Hlen. split.
  - intros Hpos. eapply grow_terminates; [assumption | lia | reflexivity].
  - intros ->. split.
    + intros f. apply grow_zero. lia.
    + intros sz f s elements a m Hc Hs He Hsum.
      apply Append_zero_capacity; auto. int64_range.
Qed.

Lemma C6_capacity_doubling_witness :
  exists k : nat,
    (forall f, (k < f)%nat -> grow_capacity f 21 10 = Some (10 * 2 ^ Z.of_nat k))
    /\ (forall f, (f <= k)%nat -> grow_capacity f 21 10 = None)
    /\ 21 < 10 * 2 ^ Z.of_nat k
    /\ (forall j : nat, (j < k)%nat -> 10 * 2 ^ Z.of_nat j <= 21).
Proof.
  assert (H1 : 0 <= 10) by lia.
  assert (H2 : 0 <= 21 < 2 ^ 62) by (vm_compute; split; [discriminate | reflexivity]).
  assert (H3 : 0 < 10) by lia.
  exact (proj1 (C6_capacity_doubling 10 21 H1 H2) H3).
Defined.

(** C6 as stated fails for a capacity that is not zero when the required
    length reaches [2^62]: a slice of capacity 1 and a new length of [2^62]
    (elements of size zero can be that many) doubles the capacity 62 times
    without exceeding the length, the next doubling overflows the [int] to
    its minimum, the one after to 0, and 0 stays 0: the loop does not stop
    and [Append] does not return. *)
Lemma C6_counterexample :
  (forall f, grow_capacity f (2 ^ 62) 1 = None)
  /\ forall f a m,
       Append 0 f (mkSlice (Ptr 0%nat 0) 1 1)
         (mkSlice (Ptr 1%nat 0) (2 ^ 62 - 1) (2 ^ 62 - 1)) a m = None.
Proof.
  assert (H : forall f, grow_capacity f (2 ^ 62) 1 = None).
  { do 64 (eapply grow_never; [vm_compute; reflexivity | vm_compute; reflexivity |]).
    intros f. apply grow_zero. vm_compute. discriminate. }
  split; [exact H |].
  intros f a m. unfold Append, growSlice. cbn [slen scap].
  change (wrap64 (1 + (2 ^ 62 - 1))) with (2 ^ 62).
  change (1 >=? 2 ^ 62) with false. cbn iota. rewrite H. reflexivity.
Qed.

(** * [Append] (C7) *)









(** What [growSlice] has done when it returns: the loop has stopped at a
    capacity, and the allocation of that capacity has returned the store of
    the result. *)
Lemma growSlice_inv sz f s elements a m r a' m' :
  growSlice sz f s elements a m = Some (Ok r, a', m') ->
  exists c m1,
    grow_capacity f (wrap64 (slen s + slen elements)) (scap s) = Some c
    /\ alloc f (wrap64 (sz * c)) a m = Some (Ok (sdata r), a', m1)
    /\ scap r = c /\ slen r = wrap64 (slen s + slen elements).
Proof.
  unfold growSlice. intros H.
  destruct (grow_capacity f (wrap64 (slen s + slen elements)) (scap s)) as [c |];
    [| discriminate].
  unfold bind at 1 in H.
  destruct (alloc f (wrap64 (sz * c)) a m) as [[[[p | e] a1] m1] |] eqn:E;
    try discriminate.
  unfold bind at 1 in H.
  destruct (unsafe_Slice sz p c a1 m1) as [[[[out | e] au] mu] |] eqn:EU;
    try discriminate.
  apply unsafe_Slice_inv in EU as (-> & -> & -> & _ & _).
  cbn [sdata slen scap] in H.
  unfold bind at 1 in H.
  destruct (memmove p (sdata s) (Z.min c (slen s) * sz) a1 m1)
    as [[[[[] | e] a2] m2] |] eqn:EM1; try discriminate.
  apply memmove_arena in EM1 as ->.
  destruct ((0 <=? slen s) && (slen s <=? c)); [| discriminate].
  unfold bind at 1 in H.
  destruct (memmove (ptr_add p (slen s * sz)) (sdata elements)
              (Z.min (c - slen s) (slen elements) * sz) a1 m2)
    as [[[[[] | e] a3] m3] |] eqn:EM2; try discriminate.
  apply memmove_arena in EM2 as ->.
  destruct ((0 <=? wrap64 (slen s + slen elements))
            && (wrap64 (slen s + slen elements) <=? c)); [| discriminate].
  unfold ret in H. simplify_eq. exists c, m1. split_and!; auto.
Qed.




(** The two branches of [Append], evaluated on a slice of three bytes with
    capacity five: two more bytes are written in place, three more move the
    slice into the arena. *)
Example Append_in_place_run :
  exists m',
    Append 1 1 (mkSlice (Ptr 0%nat 0) 3 5) (mkSlice (Ptr 1%nat 0) 2 3)
      (mkArena 100 0 0 0 2%nat [2%nat]) [hello; hello; replicate 100 zero_byte] =
      Some (Ok (mkSlice (Ptr 0%nat 0) 5 5), mkArena 100 0 0 0 2%nat [2%nat], m')
    /\ load m' (Ptr 0%nat 0) 5 =
         Some [Byte.x68; Byte.x65; Byte.x6c; Byte.x68; Byte.x65].
Proof. eexists. run_conj. Qed.

Example Append_grow_run :
  exists m',
    Append 1 3 (mkSlice (Ptr 0%nat 0) 3 5) (mkSlice (Ptr 1%nat 0) 3 3)
      (mkArena 100 0 0 0 2%nat [2%nat]) [hello; hello; replicate 100 zero_byte] =
      Some (Ok (mkSlice (Ptr 2%nat 0) 6 10), mkArena 100 0 10 0 2%nat [2%nat], m')
    /\ load m' (Ptr 2%nat 0) 6 =
         Some [Byte.x68; Byte.x65; Byte.x6c; Byte.x68; Byte.x65; Byte.x6c].
Proof. eexists. run_conj. Qed.


(** Outside the last condition of C7 the store may stay where it is.  A
    rollover in an arena that cannot provision a chunk returns offset 0 of
    the active chunk (see C1): a slice of forty bytes made in an arena of
    100-byte chunks without a limit, followed by another object of thirty
    bytes, is grown to eighty bytes onto its own bytes. *)
Example Append_rollover_keeps_address :
  exists a0 m0 s a1 m1 a2 m2 r a3 m3,
    Create 100 [] [[Byte.x2a]] = (Ok a0, m0)
    /\ Make 1 1 40 40 a0 m0 = Some (Ok s, a1, m1)
    /\ alloc 1 30 a1 m1 = Some (Ok (Ptr 1%nat 40), a2, m2)
    /\ scap s < slen s + 1
    /\ Append 1 3 s (mkSlice (Ptr 0%nat 0) 1 1) a2 m2 = Some (Ok r, a3, m3)
    /\ sdata r = sdata s
    /\ chunkCursor a3 = chunkCursor a2 + 1
    /\ chunks a3 = chunks a2.
Proof.
  do 10 eexists. run_conj.
Qed.

(** * Further properties: what an allocation does to the heap and the cursor *)

(** X1: an allocation writes no byte.  Whatever its outcome, the heap it
    leaves is the heap it found, or that heap with one more block of
    [chunkSize] zero bytes; every block that existed keeps its content, also
    the bytes the allocation hands out. *)
Theorem alloc_writes_nothing f n a m o a' m' :
  alloc f n a m = Some (o, a', m') ->
  (m' = m \/ m' = m ++ [replicate (Z.to_nat (chunkSize a)) zero_byte])
  /\ forall b bs, m !! b = Some bs -> m' !! b = Some bs.
Proof.
  intros H. destruct f as [| f]; [discriminate |].
  assert (Hm : m' = m \/ m' = m ++ [replicate (Z.to_nat (chunkSize a)) zero_byte]).
  { apply alloc_spec in H.
    destruct H as [(_ & _ & -> & _) | [(_ & _ & _ & _ & _ & ->) | (_ & _ & H)]];
      [auto | auto |].
    apply rollover_spec in H.
    destruct H as [(_ & _ & -> & _) | (a1 & Hstep & _ & _)]; [auto |].
    inversion Hstep; subst; auto. }
  split; [exact Hm |].
  intros b bs E. destruct Hm as [-> | ->]; [assumption |].
  rewrite lookup_app_l; [assumption |]. eapply lookup_lt_Some. eassumption.
Qed.

Lemma alloc_writes_nothing_witness :
  ([replicate 8 zero_byte; replicate 8 zero_byte] = [replicate 8 zero_byte]
   \/ [replicate 8 zero_byte; replicate 8 zero_byte] =
        [replicate 8 zero_byte] ++ [replicate (Z.to_nat 8) zero_byte])
  /\ forall b bs,
       [replicate 8 zero_byte] !! b = Some bs ->
       [replicate 8 zero_byte; replicate 8 zero_byte] !! b = Some bs.
Proof.
  apply (alloc_writes_nothing 1 8 (mkArena 8 2 0 0 0%nat [0%nat])
           [replicate 8 zero_byte] (Ok (Ptr 1%nat 0))
           (mkArena 8 2 8 1 1%nat [0%nat; 1%nat])).
  vm_compute. reflexivity.
Defined.

(** X2: an allocation larger than a chunk panics with ObjectTooLarge only
    after the rollover has been carried out: the chunk index has advanced,
    the cursor holds the oversized size, and when the limit leaves room a
    chunk has been provisioned and made active for nothing. *)
Theorem oversized_allocation_rolls_over c0 k f n a m :
  wf c0 a m -> index_inv k a ->
  chunkSize a < n -> 0 <= cursor a -> cursor a + n <= int64_max ->
  limit a = 0 \/ chunkCursor a < limit a ->
  chunkCursor a < int64_max ->
  exists a' m',
    alloc (S f) n a m = Some (Panic ObjectTooLarge, a', m')
    /\ chunkCursor a' = chunkCursor a + 1
    /\ cursor a' = n
    /\ (Z.of_nat (length (chunks a)) < limit a ->
        chunks a' = chunks a ++ [length m] /\ current a' = length m
        /\ m' = m ++ [replicate (Z.to_nat (chunkSize a)) zero_byte])
    /\ (limit a <= Z.of_nat (length (chunks a)) ->
        chunks a' = chunks a /\ current a' = current a /\ m' = m).
Proof.
  intros Hwf Hinv Hbig Hc Hsum Hroom Hcc.
  pose proof Hwf as [Hs _ _ _ _]. pose proof Hinv as [H0 _ Hidx _ _ _].
  destruct (alloc_returns f n a m) as [[[o a'] m'] E].
  pose proof (alloc_chunks _ _ _ _ _ _ _ _ Hinv E) as Hch.
  pose proof E as Hspec. apply alloc_spec in Hspec. cbv zeta in Hspec.
  rewrite (wrap64_id (cursor a + n)) in Hspec by int64_range.
  destruct Hspec as [(? & _) | [(_ & ? & ? & _) | (_ & _ & H)]]; [lia | lia |].
  apply rollover_spec in H.
  destruct H as [(_ & _ & _ & Hneg) | (a1 & Hstep & -> & H)].
  { cbn in Hneg. lia. }
  pose proof (chunk_step_static _ _ _ _ Hstep) as [Es _]. cbn in Es.
  assert (Ecc : chunkCursor a1 = chunkCursor a)
    by (inversion Hstep; subst; reflexivity).
  assert (Ecur : cursor a1 = n) by (inversion Hstep; subst; reflexivity).
  rewrite Es in H. destruct (Z.gtb_spec n (chunkSize a)) as [_ | ?]; [| lia].
  subst o. eexists _, _. split; [exact E |].
  cbn [chunkCursor cursor chunks current set_chunkCursor] in *.
  rewrite Ecc, wrap64_id by int64_range.
  split; [reflexivity |]. split; [assumption |].
  clear E Ecur Ecc Hch.
  inversion Hstep as [b Hr Hb | Hi Hl Hz | Hi Hl]; cbn in *.
  - lia.
  - split; [intros _; split_and!; reflexivity | intros ?; lia].
  - split; [intros ?; lia | intros _; split_and!; reflexivity].
Qed.

Lemma oversized_allocation_rolls_over_witness :
  exists a' m',
    alloc 1 72 (mkArena 4 3 0 0 0%nat [0%nat]) [replicate 4 zero_byte] =
      Some (Panic ObjectTooLarge, a', m')
    /\ chunkCursor a' = 0 + 1
    /\ cursor a' = 72
    /\ (Z.of_nat (length [0%nat]) < 3 ->
        chunks a' = [0%nat] ++ [1%nat] /\ current a' = 1%nat
        /\ m' = [replicate 4 zero_byte] ++ [replicate (Z.to_nat 4) zero_byte])
    /\ (3 <= Z.of_nat (length [0%nat]) ->
        chunks a' = [0%nat] /\ current a' = 0%nat /\ m' = [replicate 4 zero_byte]).
Proof.
  apply (oversized_allocation_rolls_over 0%nat 0 0 72
           (mkArena 4 3 0 0 0%nat [0%nat]) [replicate 4 zero_byte]).
  - apply (Create_wf 4 [3] []); [vm_compute; discriminate | reflexivity].
  - apply (Create_index 4 [3] [] _ [replicate 4 zero_byte]). reflexivity.
  - cbn. lia.
  - cbn. lia.
  - vm_compute. discriminate.
  - right. cbn. lia.
  - vm_compute. reflexivity.
Defined.

(** X3: CapacityExceeded is final until the next [Reset].  An allocation
    that has panicked at the limit leaves the cursor past the end of the
    chunk, so every later allocation of any size that is not negative, zero
    included, panics at the limit too. *)
Theorem capacity_fault_is_sticky f n a m a' m' :
  alloc f n a m = Some (Panic CapacityExceeded, a', m') ->
  forall g n2,
    0 <= n2 -> cursor a' + n2 <= int64_max ->
    alloc (S g) n2 a' m' =
      Some (Panic CapacityExceeded, set_cursor (cursor a' + n2) a', m').
Proof.
  intros H g n2 Hn2 Hsum. destruct f as [| f]; [discriminate |].
  destruct (alloc_capacity_fault _ _ _ _ _ _ _ H eq_refl)
    as (Hover & Hl0 & Hl & -> & ->).
  pose proof (wrap64_range (cursor a + n)) as Hr.
  cbn [cursor set_cursor] in *.
  assert (Hw : wrap64 (wrap64 (cursor a + n) + n2) = wrap64 (cursor a + n) + n2)
    by (apply wrap64_id; int64_range).
  rewrite alloc_overflow; cbn [cursor chunkSize limit chunkCursor set_cursor];
    rewrite Hw; [| int64_range].
  destruct (Z.eqb_spec (limit a) 0); [lia |].
  destruct (Z.geb_spec (chunkCursor a) (limit a)); [reflexivity | lia].
Qed.

Lemma capacity_fault_is_sticky_witness :
  alloc 1 4 (mkArena 8 1 16 1 0%nat [0%nat]) [replicate 8 zero_byte] =
    Some (Panic CapacityExceeded,
          set_cursor (16 + 4) (mkArena 8 1 16 1 0%nat [0%nat]),
          [replicate 8 zero_byte]).
Proof.
  apply (capacity_fault_is_sticky 1 8 (mkArena 8 1 8 1 0%nat [0%nat])
           [replicate 8 zero_byte] (mkArena 8 1 16 1 0%nat [0%nat])
           [replicate 8 zero_byte]).
  - vm_compute. reflexivity.
  - lia.
  - vm_compute. discriminate.
Defined.

(** X4: a negative size is refused by the bounds check only after it has
    been added to the cursor: the allocation panics and leaves the cursor
    [k] bytes back, inside the bytes already handed out, and the next
    allocation of [k] bytes returns those bytes a second time. *)
Theorem negative_size_rewinds_cursor f k a m :
  0 < k -> k <= cursor a -> cursor a < chunkSize a ->
  chunkSize a <= int64_max ->
  chunkSize a <= cap_of m (current a) ->
  alloc (S f) (- k) a m =
    Some (Panic RuntimeError, set_cursor (cursor a - k) a, m)
  /\ alloc (S f) k (set_cursor (cursor a - k) a) m =
       Some (Ok (Ptr (current a) (cursor a - k)), set_cursor (cursor a) a, m).
Proof.
  intros Hk Hle Hlt Hmax Hcap. split.
  - assert (Hw : wrap64 (cursor a + - k) = cursor a - k)
      by (rewrite Z.add_opp_r; apply wrap64_id; int64_range).
    rewrite alloc_fast by (rewrite Hw; lia). rewrite Hw.
    replace (cursor a - k - - k) with (cursor a) by lia.
    rewrite wrap64_id by int64_range. unfold slice_addr.
    destruct (Z.leb_spec 0 (cursor a)); [| lia].
    destruct (Z.leb_spec (cursor a) (cursor a - k)); [lia |]. reflexivity.
  - rewrite alloc_fast_ok; cbn [cursor chunkSize current set_cursor]; try lia.
    replace (cursor a - k + k) with (cursor a) by lia.
    destruct a; reflexivity.
Qed.

Lemma negative_size_rewinds_cursor_witness :
  alloc 1 (- 8) (mkArena 100 0 24 0 0%nat [0%nat]) [replicate 100 zero_byte] =
    Some (Panic RuntimeError, set_cursor (24 - 8) (mkArena 100 0 24 0 0%nat [0%nat]),
          [replicate 100 zero_byte])
  /\ alloc 1 8 (set_cursor (24 - 8) (mkArena 100 0 24 0 0%nat [0%nat]))
       [replicate 100 zero_byte] =
       Some (Ok (Ptr 0%nat (24 - 8)),
             set_cursor 24 (mkArena 100 0 24 0 0%nat [0%nat]),
             [replicate 100 zero_byte]).
Proof.
  apply (negative_size_rewinds_cursor 0 8 (mkArena 100 0 24 0 0%nat [0%nat])
           [replicate 100 zero_byte]).
  - lia.
  - cbn. lia.
  - cbn. lia.
  - vm_compute. discriminate.
  - vm_compute. discriminate.
Defined.

(** * Further properties: [Reset] *)

Lemma zero_chunks_other l m b :
  b ∉ l -> foldl zero_chunk m l !! b = m !! b.
Proof.
  revert m. induction l as [| b0 l IH]; intros m Hout; cbn; [reflexivity |].
  rewrite IH by (intros ?; apply Hout; apply elem_of_cons; auto).
  unfold zero_chunk. case_match; [| reflexivity].
  apply list_lookup_insert_ne. intros ->. apply Hout. apply list_elem_of_here.
Qed.

Lemma Reset_reachable C ls m0 a0 m1 k a m :
  C <= int64_max ->
  Create C (map WithLimit ls) m0 = (Ok a0, m1) ->
  steps k a0 m1 a m ->
  Reset a m = Some (Ok tt, a0, foldl zero_chunk m (chunks a))
  /\ wf (length m0) a m
  /\ a0 = mkArena C (final_limit ls) 0 0 (length m0) [length m0]
  /\ m1 = m0 ++ [replicate (Z.to_nat C) zero_byte].
Proof.
  intros HCmax HC Hsteps.
  pose proof (Create_wf _ _ _ _ _ HCmax HC) as Hwf0.
  pose proof (steps_wf _ _ _ _ _ _ Hwf0 Hsteps) as Hwf.
  pose proof (steps_static _ _ _ _ _ Hsteps) as [Es El].
  apply Create_inv in HC as (HC0 & -> & ->). cbn in Es, El.
  pose proof Hwf as [_ Hf _ _ _].
  destruct (chunks a) as [| c rest] eqn:Ech; [discriminate |].
  cbn in Hf. simplify_eq.
  rewrite (Reset_eq _ _ _ _ Ech), Ech, El. auto.
Qed.

(** X5: [Reset] puts the arena back into the very state [Create] left it
    in: the same chunk size and limit, cursor and chunk index 0, and the
    chunk [Create] made as the only and active chunk, all zero as it was
    then.  The heap keeps its blocks, and a block that is not one of the
    arena's chunks keeps its content. *)
Theorem Reset_restores_created_arena C ls m0 a0 m1 k a m :
  C <= int64_max ->
  Create C (map WithLimit ls) m0 = (Ok a0, m1) ->
  steps k a0 m1 a m ->
  exists m',
    Reset a m = Some (Ok tt, a0, m')
    /\ length m' = length m
    /\ m' !! length m0 = m1 !! length m0
    /\ forall b, b ∉ chunks a -> m' !! b = m !! b.
Proof.
  intros HCmax HC Hsteps.
  destruct (Reset_reachable _ _ _ _ _ _ _ _ HCmax HC Hsteps) as (HR & Hwf & -> & ->).
  exists (foldl zero_chunk m (chunks a)). split; [exact HR |].
  split; [apply zero_chunks_length |]. split.
  - pose proof Hwf as [_ Hf _ _ _].
    assert (Hin : length m0 ∈ chunks a).
    { destruct (chunks a); cbn in Hf; simplify_eq. apply list_elem_of_here. }
    rewrite (Reset_zeroes _ _ _ _ Hwf Hin).
    pose proof (steps_static _ _ _ _ _ Hsteps) as [-> _]. cbn.
    rewrite lookup_app_r by lia. rewrite Nat.sub_diag. reflexivity.
  - intros b Hout. apply zero_chunks_other. assumption.
Qed.

Lemma Reset_restores_created_arena_witness :
  exists m',
    Reset (mkArena 8 2 8 1 1%nat [0%nat; 1%nat])
      [replicate 8 zero_byte; replicate 8 Byte.x2a] =
      Some (Ok tt, mkArena 8 2 0 0 0%nat [0%nat], m')
    /\ length m' = 2%nat
    /\ m' !! 0%nat = [replicate 8 zero_byte] !! 0%nat
    /\ forall b, b ∉ [0%nat; 1%nat] ->
         m' !! b = [replicate 8 zero_byte; replicate 8 Byte.x2a] !! b.
Proof.
  apply (Reset_restores_created_arena 8 [2] [] (mkArena 8 2 0 0 0%nat [0%nat])
           [replicate 8 zero_byte] 2).
  - vm_compute. discriminate.
  - reflexivity.
  - eapply steps_S; [eapply steps_S; [apply steps_O |] |].
    + run_alloc 1%nat 8.
    + eapply (step_write (Ptr 1%nat 0) (replicate 8 Byte.x2a)).
      vm_compute. reflexivity.
Defined.

(** X6: [Reset] is idempotent: a second [Reset] right after the first
    returns as well and changes neither the arena nor a single byte. *)
Theorem Reset_idempotent C ls m0 a0 m1 k a m a' m' :
  C <= int64_max ->
  Create C (map WithLimit ls) m0 = (Ok a0, m1) ->
  steps k a0 m1 a m ->
  Reset a m = Some (Ok tt, a', m') ->
  Reset a' m' = Some (Ok tt, a', m').
Proof.
  intros HCmax HC Hsteps HR.
  assert (Hsteps' : steps (S k) a0 m1 a' m').
  { eapply steps_S; [exact Hsteps | eapply step_reset; exact HR]. }
  destruct (Reset_reachable _ _ _ _ _ _ _ _ HCmax HC Hsteps) as (HR1 & Hwf & _).
  destruct (Reset_reachable _ _ _ _ _ _ _ _ HCmax HC Hsteps') as (HR2 & Hwf' & Ea0 & _).
  rewrite HR in HR1.
  assert (a' = a0) as -> by congruence.
  assert (Em : m' = foldl zero_chunk m (chunks a)) by congruence.
  rewrite HR2. do 3 f_equal. rewrite Ea0. cbn [chunks foldl].
  pose proof Hwf as [_ Hf _ _ _].
  assert (Hin : length m0 ∈ chunks a).
  { destruct (chunks a); cbn in Hf; simplify_eq. apply list_elem_of_here. }
  pose proof (Reset_zeroes _ _ _ _ Hwf Hin) as Hz. rewrite <- Em in Hz.
  unfold zero_chunk. rewrite Hz, length_replicate.
  apply list_insert_id. exact Hz.
Qed.

Lemma Reset_idempotent_witness :
  Reset (mkArena 8 2 0 0 0%nat [0%nat]) [replicate 8 zero_byte; replicate 8 zero_byte] =
    Some (Ok tt, mkArena 8 2 0 0 0%nat [0%nat],
          [replicate 8 zero_byte; replicate 8 zero_byte]).
Proof.
  apply (Reset_idempotent 8 [2] [] (mkArena 8 2 0 0 0%nat [0%nat])
           [replicate 8 zero_byte] 2 (mkArena 8 2 8 1 1%nat [0%nat; 1%nat])
           [replicate 8 zero_byte; replicate 8 Byte.x2a]).
  - vm_compute. discriminate.
  - reflexivity.
  - eapply steps_S; [eapply steps_S; [apply steps_O |] |].
    + run_alloc 1%nat 8.
    + eapply (step_write (Ptr 1%nat 0) (replicate 8 Byte.x2a)).
      vm_compute. reflexivity.
  - vm_compute. reflexivity.
Defined.

(** X7: [Reset] gives an arena with a limit its whole budget back.  In
    whatever state the arena is, exhausted or not, after a [Reset] [L]
    allocations of a full chunk go through again. *)
Theorem Reset_restores_budget C L m0 a0 m1 k a m a' m' :
  0 < L -> in_int64 L -> 0 < C -> 2 * C <= int64_max ->
  Create C [WithLimit L] m0 = (Ok a0, m1) ->
  steps k a0 m1 a m ->
  Reset a m = Some (Ok tt, a', m') ->
  forall f, exists ps a2 m2,
    alloc_many (S f) (replicate (Z.to_nat L) C) a' m' = Some (Ok ps, a2, m2)
    /\ length ps = Z.to_nat L
    /\ chunkCursor a2 = L.
Proof.
  intros HL HL64 HC H2C HCr Hsteps HR f.
  change [WithLimit L] with (map WithLimit [L]) in HCr.
  assert (HCmax : C <= int64_max) by lia.
  assert (Hsteps' : steps (S k) a0 m1 a' m').
  { eapply steps_S; [exact Hsteps | eapply step_reset; exact HR]. }
  destruct (Reset_reachable _ _ _ _ _ _ _ _ HCmax HCr Hsteps) as (HR1 & _ & Ea0 & _).
  pose proof (Create_wf _ _ _ _ _ HCmax HCr) as Hwf0.
  pose proof (steps_wf _ _ _ _ _ _ Hwf0 Hsteps') as Hwf'.
  pose proof (Create_index _ _ _ _ _ HCr) as Hinv0.
  rewrite HR in HR1. simplify_eq.
  destruct (fill_to_limit (length m0) f C L (Z.to_nat L) HL HL64 HC H2C
              0%nat _ _ Hwf' Hinv0)
    as (ps & a2 & m2 & E & Hlen & _ & _ & _ & _ & Ecc & _);
    [reflexivity | reflexivity | left; reflexivity | cbn; lia |].
  exists ps, a2, m2. split_and!; auto. cbn in Ecc. lia.
Qed.

Lemma Reset_restores_budget_witness :
  exists ps a2 m2,
    alloc_many 1 (replicate (Z.to_nat 2) 8) (mkArena 8 2 0 0 0%nat [0%nat])
      [replicate 8 zero_byte; replicate 8 zero_byte] = Some (Ok ps, a2, m2)
    /\ length ps = Z.to_nat 2
    /\ chunkCursor a2 = 2.
Proof.
  refine (Reset_restores_budget 8 2 [] (mkArena 8 2 0 0 0%nat [0%nat])
            [replicate 8 zero_byte] 3 (mkArena 8 2 16 2 1%nat [0%nat; 1%nat])
            [replicate 8 zero_byte; replicate 8 zero_byte]
            (mkArena 8 2 0 0 0%nat [0%nat])
            [replicate 8 zero_byte; replicate 8 zero_byte] _ _ _ _ _ _ _ 0%nat).
  - lia.
  - vm_compute. split; discriminate.
  - lia.
  - vm_compute. discriminate.
  - reflexivity.
  - eapply steps_S; [eapply steps_S; [eapply steps_S; [apply steps_O |] |] |].
    + run_alloc 1%nat 8.
    + run_alloc 1%nat 8.
    + run_alloc 1%nat 8.
  - vm_compute. reflexivity.
Defined.

(** * Further properties: [Value] and [String] *)


Lemma Value_alloc_ok c0 sz f value a m p a1 m1 :
  wf c0 a m -> in_int64 sz -> Z.of_nat (length value) = sz ->
  alloc (S f) sz a m = Some (Ok p, a1, m1) ->
  exists m',
    Value sz (S f) value a m = Some (Ok p, a1, m')
    /\ store m1 p value = Some m'.
Proof.
  intros Hwf Hn Hlen E.
  destruct (alloc_ok_ptr _ _ _ _ _ _ _ _ Hwf Hn E)
    as (Hwf1 & Hpos & (off & -> & H0 & Hfit) & Hm1).
  pose proof Hwf1 as [_ _ Hc Hb _]. rewrite Forall_forall in Hb.
  destruct (Hb _ Hc) as (old & Eold & Hold).
  destruct (store_in_block m1 (current a1) off value old) as (m' & Hst & _); auto; [lia |].
  exists m'. split; [| assumption].
  unfold Value. unfold bind at 1. rewrite E. unfold write. munfold.
  rewrite Hst. reflexivity.
Qed.

Lemma Value_alloc_panic sz f value a m e a1 m1 :
  alloc (S f) sz a m = Some (Panic e, a1, m1) ->
  Value sz (S f) value a m = Some (Panic e, a1, m1).
Proof. intros E. unfold Value. unfold bind at 1. rewrite E. reflexivity. Qed.

(** X8: [Value] on an object of [sz] bytes always returns or panics, and
    its assignment through the new pointer never leaves the chunk.  When it
    returns, the object read back through the pointer is the value given,
    and every range of bytes that could be read before the call and shares
    no byte with the new object reads as before. *)
Theorem Value_stores_value c0 sz f value a m :
  wf c0 a m -> in_int64 sz -> Z.of_nat (length value) = sz ->
  (exists r, Value sz (S f) value a m = Some r)
  /\ (forall a' m', Value sz (S f) value a m <> Some (Panic MemoryFault, a', m'))
  /\ forall p a' m',
       Value sz (S f) value a m = Some (Ok p, a', m') ->
       load m' p sz = Some value
       /\ forall q n bs,
            load m q n = Some bs -> disjoint_range p sz q n ->
            load m' q n = Some bs.
Proof.
  intros Hwf Hn Hlen.
  destruct (alloc_returns f sz a m) as [[[[p | e] a1] m1] E].
  - destruct (Value_alloc_ok _ _ _ value _ _ _ _ _ Hwf Hn Hlen E) as (m2 & HV & Hst).
    rewrite HV. split; [eauto |]. split; [discriminate |].
    intros p' a' m' [= <- <- <-]. split.
    + rewrite <- Hlen. eapply load_store_same. eassumption.
    + intros q n bs Hq Hdis.
      destruct (alloc_ok_ptr _ _ _ _ _ _ _ _ Hwf Hn E) as (_ & _ & _ & Hm1).
      rewrite (load_store_other _ _ _ _ q n Hst) by (rewrite Hlen; assumption).
      eapply load_after_alloc; eassumption.
  - rewrite (Value_alloc_panic _ _ value _ _ _ _ _ E).
    split; [eauto |]. split; [| discriminate].
    intros a' m' [= -> <- <-].
    apply alloc_fault_kind in E as [? | [? | ?]]; discriminate.
Qed.

Lemma Value_stores_value_witness :
  (exists r, Value 4 1 [Byte.x2a; Byte.x00; Byte.x00; Byte.x00]
               (mkArena 100 0 0 0 1%nat [1%nat]) [hello; replicate 100 zero_byte] = Some r)
  /\ (forall a' m',
        Value 4 1 [Byte.x2a; Byte.x00; Byte.x00; Byte.x00]
          (mkArena 100 0 0 0 1%nat [1%nat]) [hello; replicate 100 zero_byte]
        <> Some (Panic MemoryFault, a', m'))
  /\ forall p a' m',
       Value 4 1 [Byte.x2a; Byte.x00; Byte.x00; Byte.x00]
         (mkArena 100 0 0 0 1%nat [1%nat]) [hello; replicate 100 zero_byte] =
         Some (Ok p, a', m') ->
       load m' p 4 = Some [Byte.x2a; Byte.x00; Byte.x00; Byte.x00]
       /\ forall q n bs,
            load [hello; replicate 100 zero_byte] q n = Some bs ->
            disjoint_range p 4 q n ->
            load m' q n = Some bs.
Proof.
  apply (Value_stores_value 1%nat 4 0 [Byte.x2a; Byte.x00; Byte.x00; Byte.x00]
           (mkArena 100 0 0 0 1%nat [1%nat]) [hello; replicate 100 zero_byte]).
  - apply (Create_wf 100 [] [hello]); [vm_compute; discriminate | reflexivity].
  - vm_compute. split; discriminate.
  - reflexivity.
Defined.

Lemma Value_many_cons sz f v vs a m :
  Value_many sz f (v :: vs) a m =
    match Value sz f v a m with
    | Some (Ok p, a1, m1) =>
        match Value_many sz f vs a1 m1 with
        | Some (Ok ps, a2, m2) => Some (Ok (p :: ps), a2, m2)
        | Some (Panic e, a2, m2) => Some (Panic e, a2, m2)
        | None => None
        end
    | Some (Panic e, a1, m1) => Some (Panic e, a1, m1)
    | None => None
    end.
Proof.
  cbn [Value_many]. unfold bind at 1.
  destruct (Value sz f v a m) as [[[[p | e] a1] m1] |]; [| reflexivity ..].
  unfold bind, ret.
  destruct (Value_many sz f vs a1 m1) as [[[[ps | e] a2] m2] |]; reflexivity.
Qed.

(** A run of [Value] calls on the fast path. *)
Lemma Value_many_fast c0 sz f vs : forall a m,
  wf c0 a m -> 0 < sz ->
  Forall (fun v => Z.of_nat (length v) = sz) vs ->
  0 <= cursor a -> cursor a + sz * Z.of_nat (length vs) < chunkSize a ->
  exists ps m',
    Value_many sz (S f) vs a m =
      Some (Ok ps, set_cursor (cursor a + sz * Z.of_nat (length vs)) a, m')
    /\ ps = map (Ptr (current a)) (offsets (cursor a) (replicate (length vs) sz))
    /\ (forall (i : nat) p v,
          ps !! i = Some p -> vs !! i = Some v -> load m' p sz = Some v)
    /\ (forall q n bs,
          load m q n = Some bs ->
          disjoint_range (Ptr (current a) (cursor a)) (sz * Z.of_nat (length vs)) q n ->
          load m' q n = Some bs)
    /\ wf c0 (set_cursor (cursor a + sz * Z.of_nat (length vs)) a) m'.
Proof.
  induction vs as [| v vs IH]; intros a m Hwf Hsz Hlen Hc Hfit.
  - exists [], m. cbn. unfold ret. rewrite Z.mul_0_r, Z.add_0_r.
    split_and!; auto.
    + destruct a; reflexivity.
    + intros i p v Hp. rewrite lookup_nil in Hp. discriminate.
    + destruct a; exact Hwf.
  - inversion Hlen as [| ? ? Hv Hlen']; subst.
    cbn [length] in Hfit. rewrite Nat2Z.inj_succ in Hfit.
    pose proof Hwf as [Hs _ _ _ _].
    pose proof (wf_current_cap _ _ _ Hwf) as Hcap.
    set (sz := Z.of_nat (length v)) in *.
    assert (Hn64 : in_int64 sz) by int64_range.
    assert (E : alloc (S f) sz a m =
                Some (Ok (Ptr (current a) (cursor a)), set_cursor (cursor a + sz) a, m)).
    { apply alloc_fast_ok; auto; nia. }
    destruct (Value_alloc_ok _ _ _ v _ _ _ _ _ Hwf Hn64 eq_refl E) as (m1 & HV & Hst).
    assert (Hwf1 : wf c0 (set_cursor (cursor a + sz) a) m1).
    { eapply step_wf; [eapply alloc_wf; eassumption |].
      eapply step_write. eassumption. }
    destruct (IH (set_cursor (cursor a + sz) a) m1 Hwf1 Hsz Hlen')
      as (ps & m' & HM & -> & Hread & Hframe & Hwf');
      cbn [cursor chunkSize set_cursor current]; try nia.
    cbn [cursor chunkSize set_cursor current] in *.
    assert (Ea : set_cursor (cursor a + sz + sz * Z.of_nat (length vs))
                   (set_cursor (cursor a + sz) a) =
                 set_cursor (cursor a + sz * Z.of_nat (length (v :: vs))) a).
    { cbn [length]. rewrite Nat2Z.inj_succ. unfold set_cursor.
      cbn [cursor chunkSize limit chunkCursor current chunks].
      replace (cursor a + sz * Z.succ (Z.of_nat (length vs)))
        with (cursor a + sz + sz * Z.of_nat (length vs)) by lia.
      reflexivity. }
    exists (Ptr (current a) (cursor a) ::
            map (Ptr (current a)) (offsets (cursor a + sz) (replicate (length vs) sz))), m'.
    split_and!.
    + rewrite Value_many_cons, HV, HM, Ea. reflexivity.
    + reflexivity.
    + intros [| i] p w Hp Hw; cbn in Hp, Hw; simplify_eq.
      * apply Hframe.
        -- eapply load_store_same. eassumption.
        -- cbn. right. right. lia.
      * eapply Hread; eassumption.
    + intros q n bs Hq Hdis. cbn [length] in Hdis. rewrite Nat2Z.inj_succ in Hdis.
      apply Hframe.
      * rewrite (load_store_other _ _ _ _ q n Hst); [assumption |].
        destruct q as [| b2 o2]; unfold disjoint_range in *; [exact I |].
        fold sz.
        destruct Hdis as [? | [? | ?]];
          [left; assumption | right; left; nia | right; right; nia].
      * destruct q as [| b2 o2]; unfold disjoint_range in *; [exact I |].
        destruct Hdis as [? | [? | ?]];
          [left; assumption | right; left; nia | right; right; nia].
    + rewrite <- Ea. exact Hwf'.
Qed.

(** X9: objects stored one after the other with [Value] while the chunk
    is not exhausted all read back at the end: no later object overwrites
    an earlier one, and the cursor has advanced by their total size. *)
Theorem Value_many_read_back c0 sz f vs a m :
  wf c0 a m -> 0 < sz ->
  Forall (fun v => Z.of_nat (length v) = sz) vs ->
  0 <= cursor a -> cursor a + sz * Z.of_nat (length vs) < chunkSize a ->
  exists ps m',
    Value_many sz (S f) vs a m =
      Some (Ok ps, set_cursor (cursor a + sz * Z.of_nat (length vs)) a, m')
    /\ length ps = length vs
    /\ forall (i : nat) p v,
         ps !! i = Some p -> vs !! i = Some v -> load m' p sz = Some v.
Proof.
  intros Hwf Hsz Hlen Hc Hfit.
  destruct (Value_many_fast c0 sz f vs a m Hwf Hsz Hlen Hc Hfit)
    as (ps & m' & HM & -> & Hread & _ & _).
  exists (map (Ptr (current a)) (offsets (cursor a) (replicate (length vs) sz))), m'.
  split_and!; auto.
  rewrite length_map, offsets_length, length_replicate. reflexivity.
Qed.

Lemma Value_many_read_back_witness :
  exists ps m',
    Value_many 2 1 [[Byte.x01; Byte.x02]; [Byte.x03; Byte.x04]; [Byte.x05; Byte.x06]]
      (mkArena 100 0 0 0 0%nat [0%nat]) [replicate 100 zero_byte] =
      Some (Ok ps, set_cursor (0 + 2 * Z.of_nat 3) (mkArena 100 0 0 0 0%nat [0%nat]), m')
    /\ length ps = 3%nat
    /\ forall (i : nat) p v,
         ps !! i = Some p ->
         [[Byte.x01; Byte.x02]; [Byte.x03; Byte.x04]; [Byte.x05; Byte.x06]] !! i = Some v ->
         load m' p 2 = Some v.
Proof.
  apply (Value_many_read_back 0%nat 2 0
           [[Byte.x01; Byte.x02]; [Byte.x03; Byte.x04]; [Byte.x05; Byte.x06]]
           (mkArena 100 0 0 0 0%nat [0%nat]) [replicate 100 zero_byte]).
  - apply (Create_wf 100 [] []); [vm_compute; discriminate | reflexivity].
  - lia.
  - repeat constructor.
  - cbn. lia.
  - cbn. lia.
Defined.




(** X10: [String] writes only the bytes of the string it returns: every
    range of bytes that could be read before the call and shares no byte
    with the new string reads as before, and so does the source string
    itself when it is stored outside the arena's chunks. *)
Theorem String_keeps_other_bytes c0 f v a m bs r a' m' :
  wf c0 a m -> in_int64 (strlen v) ->
  load m (strdata v) (strlen v) = Some bs ->
  String (S f) v a m = Some (Ok r, a', m') ->
  (forall q n old,
     load m q n = Some old -> disjoint_range (strdata r) (strlen r) q n ->
     load m' q n = Some old)
  /\ ((forall bv ov, strdata v = Ptr bv ov -> bv ∉ chunks a') ->
      load m' (strdata v) (strlen v) = Some bs).
Proof.
  intros Hwf Hn Hload HS.
  destruct (alloc_returns f (strlen v) a m) as [[[[p | e] a1] m1] E];
    [| rewrite (String_alloc_panic _ _ _ _ _ _ _ E) in HS; discriminate].
  destruct (String_alloc_ok _ _ _ _ _ _ _ _ _ Hwf Hn Hload E) as (m2 & HS' & Hst & _).
  rewrite HS' in HS. simplify_eq. cbn [strdata strlen].
  destruct (alloc_ok_ptr _ _ _ _ _ _ _ _ Hwf Hn E)
    as (Hwf1 & _ & (off & -> & _ & _) & Hm1).
  pose proof (load_length _ _ _ _ Hload) as Hlen.
  assert (Hframe : forall q n old,
            load m q n = Some old ->
            disjoint_range (Ptr (current a') off) (strlen v) q n ->
            load m' q n = Some old).
  { intros q n old Hq Hdis.
    rewrite (load_store_other _ _ _ _ q n Hst) by (rewrite Hlen; assumption).
    eapply load_after_alloc; eassumption. }
  split; [exact Hframe |].
  intros Hout. apply Hframe; [assumption |].
  destruct (strdata v) as [| bv ov]; cbn; [exact I |].
  left. intros <-. apply (Hout _ _ eq_refl). destruct Hwf1; assumption.
Qed.

Lemma String_keeps_other_bytes_witness :
  (forall q n old,
     load [hello; replicate 100 zero_byte] q n = Some old ->
     disjoint_range (Ptr 1%nat 0) 5 q n ->
     load [hello; hello ++ replicate 95 zero_byte] q n = Some old)
  /\ ((forall bv ov, Ptr 0%nat 0 = Ptr bv ov -> bv ∉ [1%nat]) ->
      load [hello; hello ++ replicate 95 zero_byte] (Ptr 0%nat 0) 5 = Some hello).
Proof.
  apply (String_keeps_other_bytes 1%nat 0 (mkString (Ptr 0%nat 0) 5)
           (mkArena 100 0 0 0 1%nat [1%nat]) [hello; replicate 100 zero_byte] hello
           (mkString (Ptr 1%nat 0) 5) (mkArena 100 0 5 0 1%nat [1%nat])
           [hello; hello ++ replicate 95 zero_byte]).
  - apply (Create_wf 100 [] [hello]); [vm_compute; discriminate | reflexivity].
  - vm_compute. split; discriminate.
  - reflexivity.
  - vm_compute. reflexivity.
Defined.

(** * Further properties: [Make] and [Append] *)

Lemma Make_alloc_ok sz f size cap a m p a1 m1 :
  0 <= cap -> sz * cap < 2 ^ 64 ->
  alloc (S f) (wrap64 (sz * cap)) a m = Some (Ok p, a1, m1) ->
  Make sz (S f) size cap a m =
    if (0 <=? size) && (size <=? cap) then Some (Ok (mkSlice p size cap), a1, m1)
    else Some (Panic RuntimeError, a1, m1).
Proof.
  intros Hcap Hsize E. unfold Make. unfold bind at 1. rewrite E.
  destruct (alloc_ok_not_null _ _ _ _ _ _ _ E) as (b & off & ->).
  unfold bind at 1. rewrite unsafe_Slice_ok by assumption.
  munfold. cbn [sdata scap].
  destruct ((0 <=? size) && (size <=? cap)); reflexivity.
Qed.

Lemma Make_alloc_panic sz f size cap a m e a1 m1 :
  alloc (S f) (wrap64 (sz * cap)) a m = Some (Panic e, a1, m1) ->
  Make sz (S f) size cap a m = Some (Panic e, a1, m1).
Proof. intros E. unfold Make. unfold bind at 1. rewrite E. reflexivity. Qed.

(** X12: whenever [Make] returns, the slice has the length and the
    capacity asked for, with [0 <= size <= cap], neither the element size
    nor the capacity is zero, and the whole capacity lies inside the active
    chunk and can be read.  In particular [Make] never returns an empty
    backing store: for a capacity of zero it panics. *)
Theorem Make_returns_slice c0 sz f size cap a m s a' m' :
  wf c0 a m -> 0 <= sz -> 0 <= cap -> sz * cap <= int64_max ->
  Make sz (S f) size cap a m = Some (Ok s, a', m') ->
  slen s = size /\ scap s = cap /\ 0 <= size <= cap
  /\ 0 < sz /\ 0 < cap
  /\ exists off backing,
       sdata s = Ptr (current a') off /\ current a' ∈ chunks a'
       /\ 0 <= off /\ off + sz * cap <= chunkSize a'
       /\ load m' (sdata s) (cap * sz) = Some backing.
Proof.
  intros Hwf Hsz Hcap Hmax H.
  assert (Hn : in_int64 (sz * cap)) by (unfold in_int64, int64_min, int64_max in *; nia).
  rewrite <- (wrap64_id _ Hn) in Hn.
  destruct (alloc_returns f (wrap64 (sz * cap)) a m) as [[[[p | e] a1] m1] E];
    [| rewrite (Make_alloc_panic _ _ _ _ _ _ _ _ _ E) in H; discriminate].
  assert (Hfits : sz * cap < 2 ^ 64) by (unfold int64_max in Hmax; lia).
  rewrite (Make_alloc_ok _ _ size _ _ _ _ _ _ Hcap Hfits E) in H.
  destruct (Z.leb_spec 0 size), (Z.leb_spec size cap); cbn [andb] in H; try discriminate.
  simplify_eq. cbn [slen scap sdata].
  destruct (alloc_ok_ptr _ _ _ _ _ _ _ _ Hwf Hn E)
    as (Hwf1 & Hpos & (off & -> & Hoff & Hfit) & _).
  assert (Hw : wrap64 (sz * cap) = sz * cap).
  { apply wrap64_id. unfold in_int64, int64_min, int64_max in *. nia. }
  rewrite Hw in Hpos, Hfit.
  split_and!; auto; try nia.
  pose proof Hwf1 as [_ _ Hc Hb _]. rewrite Forall_forall in Hb.
  destruct (Hb _ Hc) as (old & Eold & Hold).
  exists off, (take (Z.to_nat (cap * sz)) (drop (Z.to_nat off) old)).
  split_and!; auto.
  apply load_in_block; auto; nia.
Qed.

Lemma Make_returns_slice_witness :
  slen (mkSlice (Ptr 0%nat 0) 0 10) = 0 /\ scap (mkSlice (Ptr 0%nat 0) 0 10) = 10
  /\ 0 <= 0 <= 10 /\ 0 < 8 /\ 0 < 10
  /\ exists off backing,
       sdata (mkSlice (Ptr 0%nat 0) 0 10) = Ptr (current (mkArena 1024 0 80 0 0%nat [0%nat])) off
       /\ current (mkArena 1024 0 80 0 0%nat [0%nat]) ∈ chunks (mkArena 1024 0 80 0 0%nat [0%nat])
       /\ 0 <= off /\ off + 8 * 10 <= chunkSize (mkArena 1024 0 80 0 0%nat [0%nat])
       /\ load [replicate 1024 zero_byte] (sdata (mkSlice (Ptr 0%nat 0) 0 10)) (10 * 8) =
            Some backing.
Proof.
  apply (Make_returns_slice 0%nat 8 0 0 10 (mkArena 1024 0 0 0 0%nat [0%nat])
           [replicate 1024 zero_byte] (mkSlice (Ptr 0%nat 0) 0 10)
           (mkArena 1024 0 80 0 0%nat [0%nat]) [replicate 1024 zero_byte]).
  - apply (Create_wf 1024 [] []); [vm_compute; discriminate | reflexivity].
  - lia.
  - lia.
  - vm_compute. discriminate.
  - vm_compute. reflexivity.
Defined.

(** X13: a [Make] whose size is negative or exceeds the capacity panics
    only after the allocation: the bytes of the whole capacity have been
    taken from the chunk and the cursor stays advanced, although no slice is
    returned. *)
Theorem Make_bad_size_keeps_allocation c0 sz f size cap a m :
  wf c0 a m -> 0 < sz -> 0 < cap ->
  0 <= cursor a -> cursor a + sz * cap < chunkSize a ->
  size < 0 \/ cap < size ->
  Make sz (S f) size cap a m =
    Some (Panic RuntimeError, set_cursor (cursor a + sz * cap) a, m).
Proof.
  intros Hwf Hsz Hcap Hc Hfit Hbad.
  pose proof Hwf as [Hs _ _ _ _].
  pose proof (wf_current_cap _ _ _ Hwf) as Hcc.
  assert (Hw : wrap64 (sz * cap) = sz * cap).
  { apply wrap64_id. unfold in_int64, int64_min, int64_max in *. nia. }
  assert (E : alloc (S f) (wrap64 (sz * cap)) a m =
              Some (Ok (Ptr (current a) (cursor a)),
                    set_cursor (cursor a + sz * cap) a, m)).
  { rewrite Hw. apply alloc_fast_ok; auto; try lia; nia. }
  assert (Hfits : sz * cap < 2 ^ 64) by (unfold int64_max in Hs; nia).
  rewrite (Make_alloc_ok _ _ size _ _ _ _ _ _ (Z.lt_le_incl _ _ Hcap) Hfits E).
  destruct (Z.leb_spec 0 size), (Z.leb_spec size cap); cbn [andb]; try reflexivity; lia.
Qed.

Lemma Make_bad_size_keeps_allocation_witness :
  Make 8 1 11 10 (mkArena 1024 0 0 0 0%nat [0%nat]) [replicate 1024 zero_byte] =
    Some (Panic RuntimeError,
          set_cursor (0 + 8 * 10) (mkArena 1024 0 0 0 0%nat [0%nat]),
          [replicate 1024 zero_byte]).
Proof.
  apply (Make_bad_size_keeps_allocation 0%nat 8 0 11 10
           (mkArena 1024 0 0 0 0%nat [0%nat]) [replicate 1024 zero_byte]).
  - apply (Create_wf 1024 [] []); [vm_compute; discriminate | reflexivity].
  - lia.
  - lia.
  - cbn. lia.
  - cbn. lia.
  - right. lia.
Defined.



(** X15: [Append] without elements is the identity on every slice, the
    nil slice included: it returns the slice as it is, allocates nothing
    and writes nothing, whatever the state of the arena. *)
Theorem Append_nothing_is_identity sz f s elements a m :
  slen elements = 0 -> 0 <= slen s <= scap s -> scap s <= int64_max ->
  Append sz f s elements a m = Some (Ok s, a, m).
Proof.
  intros He Hs Hmax. unfold Append, builtin_append, memmove. munfold.
  rewrite He, Z.add_0_r, Z.mul_0_l.
  rewrite wrap64_id by (unfold in_int64, int64_min, int64_max in *; lia).
  destruct (Z.geb_spec (scap s) (slen s)); [| lia].
  destruct (Z.ltb_spec (slen s) 0); [lia |].
  cbn [load Z.eqb store]. destruct s; reflexivity.
Qed.

Lemma Append_nothing_is_identity_witness :
  Append 8 0 (mkSlice Null 0 0) (mkSlice Null 0 0)
    (mkArena 16 1 16 1 0%nat [0%nat]) [replicate 16 zero_byte] =
    Some (Ok (mkSlice Null 0 0), mkArena 16 1 16 1 0%nat [0%nat], [replicate 16 zero_byte]).
Proof.
  apply (Append_nothing_is_identity 8 0 (mkSlice Null 0 0) (mkSlice Null 0 0)
           (mkArena 16 1 16 1 0%nat [0%nat]) [replicate 16 zero_byte]).
  - reflexivity.
  - cbn. lia.
  - vm_compute. discriminate.
Defined.

Lemma grow_bounds f : forall newLen cap c,
  0 < cap -> cap <= newLen -> newLen < 2 ^ 62 ->
  grow_capacity f newLen cap = Some c ->
  newLen < c /\ c <= 2 * newLen /\ exists k : nat, c = cap * 2 ^ Z.of_nat k.
Proof.
  induction f as [| f IH]; intros newLen cap c Hcap Hle Hlen H; [discriminate |].
  cbn [grow_capacity] in H. destruct (Z.geb_spec newLen cap); [| lia].
  rewrite wrap64_id in H by (unfold in_int64, int64_min, int64_max; lia).
  destruct (Z.le_gt_cases (cap * 2) newLen) as [Hmore | Hstop].
  - assert (Hcap2 : 0 < cap * 2) by lia.
    destruct (IH newLen (cap * 2) c Hcap2 Hmore Hlen H) as (H1 & H2 & k & ->).
    split_and!; auto. exists (S k). rewrite Nat2Z.inj_succ, Z.pow_succ_r by lia. lia.
  - destruct f as [| f]; [discriminate |].
    cbn [grow_capacity] in H. destruct (Z.geb_spec newLen (cap * 2)); [lia |].
    simplify_eq. split_and!; try lia. exists 1%nat. change (2 ^ Z.of_nat 1) with 2. lia.
Qed.

Lemma growSlice_capacity sz f s elements a m r a' m' :
  growSlice sz f s elements a m = Some (Ok r, a', m') ->
  grow_capacity f (wrap64 (slen s + slen elements)) (scap s) = Some (scap r)
  /\ slen r = wrap64 (slen s + slen elements).
Proof.
  intros H. apply growSlice_inv in H as (c & m1 & Hg & _ & -> & Hl). auto.
Qed.

(** X16: when [Append] has to grow a slice whose capacity is not zero, the
    slice it returns has a capacity that is the old one doubled some number
    of times, strictly above the new length and at most twice the new
    length: the arena is asked for no more than twice the elements held. *)
Theorem Append_grown_capacity_bounds sz f s elements a m r a' m' :
  0 < scap s -> 0 <= slen s -> 0 <= slen elements ->
  scap s < slen s + slen elements -> slen s + slen elements < 2 ^ 62 ->
  Append sz f s elements a m = Some (Ok r, a', m') ->
  slen r = slen s + slen elements
  /\ slen r < scap r /\ scap r <= 2 * slen r
  /\ exists k : nat, (0 < k)%nat /\ scap r = scap s * 2 ^ Z.of_nat k.
Proof.
  intros Hcap Hs He Hfull Hlen H.
  assert (Hw : wrap64 (slen s + slen elements) = slen s + slen elements).
  { apply wrap64_id. unfold in_int64, int64_min, int64_max. lia. }
  unfold Append in H. rewrite Hw in H.
  destruct (Z.geb_spec (scap s) (slen s + slen elements)); [lia |].
  apply growSlice_capacity in H as [Hg Hl]. rewrite Hw in Hg, Hl.
  assert (Hle : scap s <= slen s + slen elements) by lia.
  destruct (grow_bounds _ _ _ _ Hcap Hle Hlen Hg) as (H1 & H2 & k & Hk).
  rewrite Hl. split_and!; auto.
  exists k. split; [| assumption].
  destruct k as [| k]; [| lia].
  change (2 ^ Z.of_nat 0) with 1 in Hk. lia.
Qed.

Lemma Append_grown_capacity_bounds_witness :
  slen (mkSlice (Ptr 2%nat 0) 6 10) = 3 + 3
  /\ slen (mkSlice (Ptr 2%nat 0) 6 10) < scap (mkSlice (Ptr 2%nat 0) 6 10)
  /\ scap (mkSlice (Ptr 2%nat 0) 6 10) <= 2 * slen (mkSlice (Ptr 2%nat 0) 6 10)
  /\ exists k : nat, (0 < k)%nat /\ scap (mkSlice (Ptr 2%nat 0) 6 10) = 5 * 2 ^ Z.of_nat k.
Proof.
  apply (Append_grown_capacity_bounds 1 3 (mkSlice (Ptr 0%nat 0) 3 5)
           (mkSlice (Ptr 1%nat 0) 3 3) (mkArena 100 0 0 0 2%nat [2%nat])
           [hello; hello; replicate 100 zero_byte] (mkSlice (Ptr 2%nat 0) 6 10)
           (mkArena 100 0 10 0 2%nat [2%nat])
           [hello; hello;
            [Byte.x68; Byte.x65; Byte.x6c; Byte.x68; Byte.x65; Byte.x6c]
              ++ replicate 94 zero_byte]).
  - cbn. lia.
  - cbn. lia.
  - cbn. lia.
  - cbn. lia.
  - cbn. lia.
  - vm_compute. reflexivity.
Defined.

(** * Further properties: the chunk list under a limit *)

(** X17: in an arena created with a limit [L > 0] the chunk list never
    holds more than [L] chunks and never fewer than one, whatever is
    allocated, written or reset; the chunk index stays within [[0, L]] and
    the chunk count is the chunk index plus one, capped at [L]. *)
Theorem chunk_count_bounded_by_limit C L m0 a0 m1 k a m :
  0 < L -> in_int64 L ->
  Create C [WithLimit L] m0 = (Ok a0, m1) ->
  steps k a0 m1 a m ->
  (1 <= length (chunks a))%nat
  /\ Z.of_nat (length (chunks a)) <= L
  /\ 0 <= chunkCursor a <= L
  /\ Z.of_nat (length (chunks a)) = Z.min (chunkCursor a + 1) L.
Proof.
  intros HL HL64 HC Hsteps.
  change [WithLimit L] with (map WithLimit [L]) in HC.
  assert (Hls : Forall in_int64 [L]) by (constructor; [assumption | constructor]).
  assert (Hb : final_limit [L] = 0 -> Z.of_nat k <= int64_max).
  { cbn. lia. }
  destruct (reachable_index _ _ _ _ _ _ _ _ HC Hls Hb Hsteps) as (Hinv & El & _).
  cbn in El. destruct Hinv as [H0 _ _ _ _ Hlim].
  rewrite El in Hlim. destruct (Hlim HL) as [Hcc Hlen].
  split_and!; lia.
Qed.

Lemma chunk_count_bounded_by_limit_witness :
  (1 <= length (chunks (mkArena 8 2 16 2 1%nat [0%nat; 1%nat])))%nat
  /\ Z.of_nat (length (chunks (mkArena 8 2 16 2 1%nat [0%nat; 1%nat]))) <= 2
  /\ 0 <= chunkCursor (mkArena 8 2 16 2 1%nat [0%nat; 1%nat]) <= 2
  /\ Z.of_nat (length (chunks (mkArena 8 2 16 2 1%nat [0%nat; 1%nat]))) =
       Z.min (chunkCursor (mkArena 8 2 16 2 1%nat [0%nat; 1%nat]) + 1) 2.
Proof.
  apply (chunk_count_bounded_by_limit 8 2 [] (mkArena 8 2 0 0 0%nat [0%nat])
           [replicate 8 zero_byte] 3 (mkArena 8 2 16 2 1%nat [0%nat; 1%nat])
           [replicate 8 zero_byte; replicate 8 zero_byte]).
  - lia.
  - vm_compute. split; discriminate.
  - reflexivity.
  - eapply steps_S; [eapply steps_S; [eapply steps_S; [apply steps_O |] |] |].
    + run_alloc 1%nat 8.
    + run_alloc 1%nat 8.
    + run_alloc 1%nat 8.
Defined.

(** X18: a negative limit makes the one chunk of [Create] all the memory
    the arena will ever have.  The chunk list stays that one chunk, and
    every allocation that does not fit behind the cursor panics with
    CapacityExceeded, the first one included. *)
Theorem negative_limit_never_expands C L m0 a0 m1 k a m :
  L < 0 -> in_int64 L -> C <= int64_max ->
  Create C [WithLimit L] m0 = (Ok a0, m1) ->
  steps k a0 m1 a m ->
  chunks a = [length m0] /\ current a = length m0
  /\ forall f n,
       C <= wrap64 (cursor a + n) ->
       alloc (S f) n a m =
         Some (Panic CapacityExceeded, set_cursor (wrap64 (cursor a + n)) a, m).
Proof.
  intros HL HL64 HCmax HC Hsteps.
  change [WithLimit L] with (map WithLimit [L]) in HC.
  assert (Hls : Forall in_int64 [L]) by (constructor; [assumption | constructor]).
  assert (Hb : final_limit [L] = 0 -> Z.of_nat k <= int64_max).
  { cbn. lia. }
  destruct (reachable_index _ _ _ _ _ _ _ _ HC Hls Hb Hsteps) as (Hinv & El & Es).
  pose proof (Create_wf _ _ _ _ _ HCmax HC) as Hwf0.
  pose proof (steps_wf _ _ _ _ _ _ Hwf0 Hsteps) as Hwf.
  cbn in El. destruct Hinv as [H0 _ _ Hlast Hun _].
  assert (Hone : length (chunks a) = 1%nat) by (apply Hun; lia).
  pose proof Hwf as [_ Hf _ _ _].
  destruct (chunks a) as [| c [| c' rest]] eqn:Ech; try discriminate.
  cbn in Hf, Hlast. simplify_eq.
  split; [reflexivity |]. split; [congruence |].
  intros f n Hover. rewrite alloc_overflow by lia.
  destruct (Z.eqb_spec (limit a) 0); [lia |].
  destruct (Z.geb_spec (chunkCursor a) (limit a)); [reflexivity | lia].
Qed.

Lemma negative_limit_never_expands_witness :
  chunks (mkArena 8 (-1) 4 0 0%nat [0%nat]) = [0%nat]
  /\ current (mkArena 8 (-1) 4 0 0%nat [0%nat]) = 0%nat
  /\ forall f n,
       8 <= wrap64 (cursor (mkArena 8 (-1) 4 0 0%nat [0%nat]) + n) ->
       alloc (S f) n (mkArena 8 (-1) 4 0 0%nat [0%nat]) [replicate 8 zero_byte] =
         Some (Panic CapacityExceeded,
               set_cursor (wrap64 (cursor (mkArena 8 (-1) 4 0 0%nat [0%nat]) + n))
                 (mkArena 8 (-1) 4 0 0%nat [0%nat]),
               [replicate 8 zero_byte]).
Proof.
  apply (negative_limit_never_expands 8 (-1) [] (mkArena 8 (-1) 0 0 0%nat [0%nat])
           [replicate 8 zero_byte] 1).
  - lia.
  - vm_compute. split; discriminate.
  - vm_compute. discriminate.
  - reflexivity.
  - eapply steps_S; [apply steps_O |]. run_alloc 1%nat 4.
Defined.

(** X19: in an arena with a limit [L > 0] the rollover that takes the
    chunk index from [L - 1] to [L] provisions nothing: the chunk list
    already holds [L] chunks.  The allocation returns all the same, with
    offset 0 of the chunk that was active before, leaving the chunk list,
    the active chunk and the heap as they were. *)
Theorem last_rollover_reuses_active_chunk C L m0 a0 m1 k a m f n :
  0 < L -> in_int64 L -> C <= int64_max ->
  Create C [WithLimit L] m0 = (Ok a0, m1) ->
  steps k a0 m1 a m ->
  chunkCursor a = L - 1 ->
  0 < n <= C -> C <= wrap64 (cursor a + n) ->
  alloc (S f) n a m =
    Some (Ok (Ptr (current a) 0), set_chunkCursor L (set_cursor n a), m).
Proof.
  intros HL HL64 HCmax HC Hsteps Hcc Hn Hover.
  change [WithLimit L] with (map WithLimit [L]) in HC.
  assert (Hls : Forall in_int64 [L]) by (constructor; [assumption | constructor]).
  assert (Hb : final_limit [L] = 0 -> Z.of_nat k <= int64_max).
  { cbn. lia. }
  destruct (reachable_index _ _ _ _ _ _ _ _ HC Hls Hb Hsteps) as (Hinv & El & Es).
  pose proof (Create_wf _ _ _ _ _ HCmax HC) as Hwf0.
  pose proof (steps_wf _ _ _ _ _ _ Hwf0 Hsteps) as Hwf.
  cbn in El. rewrite <- El.
  apply (rollover_at_limit (length m0) k); auto; rewrite ?El, ?Es; auto.
Qed.

Lemma last_rollover_reuses_active_chunk_witness :
  alloc 1 8 (mkArena 8 1 5 0 0%nat [0%nat]) [replicate 8 zero_byte] =
    Some (Ok (Ptr (current (mkArena 8 1 5 0 0%nat [0%nat])) 0),
          set_chunkCursor 1 (set_cursor 8 (mkArena 8 1 5 0 0%nat [0%nat])),
          [replicate 8 zero_byte]).
Proof.
  apply (last_rollover_reuses_active_chunk 8 1 [] (mkArena 8 1 0 0 0%nat [0%nat])
           [replicate 8 zero_byte] 1).
  - lia.
  - vm_compute. split; discriminate.
  - vm_compute. discriminate.
  - reflexivity.
  - eapply steps_S; [apply steps_O |]. run_alloc 1%nat 5.
  - reflexivity.
  - lia.
  - vm_compute. discriminate.
Defined.

(** X20: an arena with a limit of [L >= 2] chunks hands out the start of
    its last chunk twice.  From the fresh arena, after [L - 2] allocations
    of a full chunk, the next two allocations of a full chunk both return,
    and they return the same address; the heap is the same after both. *)
Theorem limited_arena_hands_out_last_chunk_twice C L m0 a0 m1 f :
  2 <= L -> in_int64 L -> 0 < C -> 2 * C <= int64_max ->
  Create C [WithLimit L] m0 = (Ok a0, m1) ->
  exists ps a m p a' m' a'',
    alloc_many (S f) (replicate (Z.to_nat (L - 2)) C) a0 m1 = Some (Ok ps, a, m)
    /\ alloc (S f) C a m = Some (Ok p, a', m')
    /\ alloc (S f) C a' m' = Some (Ok p, a'', m')
    /\ chunkCursor a'' = L.
Proof.
  intros HL HL64 HC H2C HCr.
  change [WithLimit L] with (map WithLimit [L]) in HCr.
  assert (HCmax : C <= int64_max) by lia.
  pose proof (Create_wf _ _ _ _ _ HCmax HCr) as Hwf0.
  pose proof (Create_index _ _ _ _ _ HCr) as Hinv0.
  apply Create_inv in HCr as (_ & -> & ->).
  assert (HL0 : 0 < L) by lia.
  destruct (fill_to_limit (length m0) f C L (Z.to_nat (L - 2)) HL0 HL64 HC H2C
              0%nat _ _ Hwf0 Hinv0)
    as (ps & a & m & E & _ & Hwf & Hinv & Es & El & Ecc & Ecur);
    [reflexivity | reflexivity | left; reflexivity | cbn; lia |].
  cbn [chunkCursor cursor] in Ecc, Ecur.
  assert (Hc : cursor a = 0 \/ cursor a = C).
  { destruct (Z.to_nat (L - 2)); auto. }
  assert (Hover : chunkSize a <= wrap64 (cursor a + C)).
  { rewrite wrap64_id by (destruct Hc as [-> | ->]; int64_range).
    destruct Hc as [-> | ->]; lia. }
  destruct (alloc_rollover_ok (length m0) _ f C a m Hwf Hinv Hover)
    as (a' & m' & E1 & Ecc1 & Ecur1); [right; lia | lia | int64_range |].
  assert (Hn64 : in_int64 C) by int64_range.
  pose proof (alloc_wf _ _ _ _ _ _ _ _ Hwf Hn64 E1) as Hwf'.
  pose proof (alloc_static _ _ _ _ _ _ _ E1) as [Es1 El1].
  assert (Hinv' : index_inv (S (0 + Z.to_nat (L - 2))) a').
  { eapply alloc_index; [exact Hinv | | | exact E1]; rewrite El; [assumption | lia]. }
  exists ps, a, m, (Ptr (current a') 0), a', m', (set_chunkCursor (limit a') (set_cursor C a')).
  split; [exact E |]. split; [exact E1 |]. split.
  - apply (rollover_at_limit (length m0) _ f C a' m' Hwf' Hinv'); try lia.
    + rewrite El1, El. assumption.
    + rewrite Ecur1, Es1, Es. rewrite wrap64_id by int64_range. lia.
  - cbn. lia.
Qed.

Lemma limited_arena_hands_out_last_chunk_twice_witness :
  exists ps a m p a' m' a'',
    alloc_many 1 (replicate (Z.to_nat (2 - 2)) 8) (mkArena 8 2 0 0 0%nat [0%nat])
      [replicate 8 zero_byte] = Some (Ok ps, a, m)
    /\ alloc 1 8 a m = Some (Ok p, a', m')
    /\ alloc 1 8 a' m' = Some (Ok p, a'', m')
    /\ chunkCursor a'' = 2.
Proof.
  apply (limited_arena_hands_out_last_chunk_twice 8 2 [] (mkArena 8 2 0 0 0%nat [0%nat])
           [replicate 8 zero_byte] 0).
  - lia.
  - vm_compute. split; discriminate.
  - lia.
  - vm_compute. discriminate.
  - reflexivity.
Defined.

(** * Further properties: objects do not overlap below the limit *)

(** The ways an allocation returns in an arena with a limit: from the fast
    path, from a freshly provisioned chunk, or from the rollover that takes
    the chunk index to the limit. *)
Lemma alloc_ok_cases c0 k f n a m p a' m' :
  wf c0 a m -> index_inv k a -> in_int64 n ->
  0 < limit a -> in_int64 (limit a) ->
  alloc (S f) n a m = Some (Ok p, a', m') ->
  0 < n /\ chunkCursor a <= chunkCursor a'
  /\ ((p = Ptr (current a) (cursor a) /\ 0 <= cursor a
       /\ a' = set_cursor (cursor a + n) a /\ m' = m)
      \/ (p = Ptr (length m) 0 /\ current a' = length m /\ cursor a' = n
          /\ length m' = S (length m))
      \/ limit a <= chunkCursor a').
Proof.
  intros Hwf Hinv Hn HL HL64 E.
  destruct (alloc_ok_ptr _ _ _ _ _ _ _ _ Hwf Hn E) as (_ & Hpos & _ & _).
  split; [assumption |].
  pose proof Hwf as [_ _ _ _ Hcur].
  pose proof Hinv as [Hcc0 _ Hidx _ _ Hlim]. destruct (Hlim HL) as [Hccl Hlen].
  apply alloc_spec in E. cbv zeta in E.
  destruct E as [(Hfast & -> & -> & H) | [(_ & _ & _ & ? & _) | (_ & Hroom & H)]];
    [| discriminate |].
  - rewrite wrap64_sub_add in H by assumption.
    apply slice_addr_ok in H as (-> & H0 & Hlt & _).
    pose proof (wrap64_sum_ordered _ _ H0 Hcur Hn Hlt) as Hw.
    cbn [chunkCursor set_cursor]. split; [lia |]. left. rewrite Hw. auto.
  - apply rollover_spec in H.
    destruct H as [(? & _) | (a1 & Hstep & -> & H)]; [discriminate |].
    destruct (n >? chunkSize a1); [discriminate |].
    apply slice_addr_ok in H as (-> & _).
    assert (Hw : wrap64 (chunkCursor a + 1) = chunkCursor a + 1).
    { apply wrap64_id. unfold in_int64, int64_min, int64_max in *. lia. }
    clear Hwf Hinv Hlim.
    inversion Hstep as [b Hr Hb | Hi Hl Hz | Hi Hl]; subst;
      cbn [chunkCursor cursor current chunks limit set_cursor set_chunkCursor
           set_current set_chunks] in *; rewrite Hw.
    + lia.
    + split; [lia |]. right. left. split_and!; auto.
      rewrite length_app. cbn. lia.
    + split; [lia |]. right. right. lia.
Qed.

Lemma alloc_many_below_limit c0 f ns : forall k a m ps a' m',
  wf c0 a m -> index_inv k a ->
  0 < limit a -> in_int64 (limit a) ->
  Forall in_int64 ns ->
  alloc_many (S f) ns a m = Some (Ok ps, a', m') ->
  chunkCursor a' < limit a ->
  chunkCursor a <= chunkCursor a'
  /\ (forall (i : nat) p, ps !! i = Some p -> handed_after a m p)
  /\ (forall (i j : nat) p q n1 n2,
        (i < j)%nat ->
        ps !! i = Some p -> ns !! i = Some n1 ->
        ps !! j = Some q -> ns !! j = Some n2 ->
        disjoint_range p n1 q n2).
Proof.
  induction ns as [| n ns IH]; intros k a m ps a' m' Hwf Hinv HL HL64 Hns H Hbelow.
  - cbn in H. unfold ret in H. simplify_eq. split; [lia |].
    split; intros *; rewrite ?lookup_nil; intros; discriminate.
  - inversion Hns as [| ? ? Hn Hns']; subst.
    rewrite alloc_many_cons in H.
    destruct (alloc (S f) n a m) as [[[[p | e] a1] m1] |] eqn:E; try discriminate.
    destruct (alloc_many (S f) ns a1 m1) as [[[[ps' | e] a2] m2] |] eqn:EM;
      try discriminate.
    assert (ps = p :: ps') as -> by congruence.
    assert (a2 = a') as -> by congruence.
    assert (m2 = m') as -> by congruence. clear H.
    pose proof (alloc_wf _ _ _ _ _ _ _ _ Hwf Hn E) as Hwf1.
    pose proof (alloc_static _ _ _ _ _ _ _ E) as [_ El].
    assert (Hinv1 : index_inv (S k) a1).
    { eapply alloc_index; [exact Hinv | assumption | lia | exact E]. }
    destruct (alloc_ok_cases _ _ _ _ _ _ _ _ _ Hwf Hinv Hn HL HL64 E)
      as (Hpos & Hcc & Hcase).
    destruct (IH (S k) a1 m1 ps' a' m' Hwf1 Hinv1) as (Hcc' & Hafter & Hdis);
      rewrite ?El; auto.
    assert (Hcur : (current a < length m)%nat).
    { pose proof Hwf as [_ _ Hc Hb _]. rewrite Forall_forall in Hb.
      destruct (Hb _ Hc) as (old & Eold & _). eapply lookup_lt_Some. eassumption. }
    split; [lia |].
    destruct Hcase as [(-> & H0 & -> & ->) | [(-> & Ecur & Ecu & Elen) | Hlim]];
      [| | lia].
    + cbn [handed_after current cursor set_cursor] in *. split.
      * intros [| i] q Hq; cbn in Hq; simplify_eq.
        -- left. split; [reflexivity | lia].
        -- specialize (Hafter _ _ Hq). destruct q as [| b off]; [contradiction |].
           cbn in Hafter |- *.
           destruct Hafter as [[-> Hoff] | Hb]; [left; split; [reflexivity | lia] | right; lia].
      * intros [| i] [| j] q1 q2 n1 n2 Hij Hq1 Hn1 Hq2 Hn2; cbn in Hq1, Hn1, Hq2, Hn2;
          try lia; simplify_eq.
        -- specialize (Hafter _ _ Hq2). destruct q2 as [| b off]; [contradiction |].
           cbn in Hafter |- *.
           destruct Hafter as [[-> Hoff] | Hb]; [right; left; lia | left; lia].
        -- eapply (Hdis i j); eauto. lia.
    + split.
      * intros [| i] q Hq; cbn in Hq; simplify_eq.
        -- right. lia.
        -- specialize (Hafter _ _ Hq). destruct q as [| b off]; [contradiction |].
           cbn [handed_after] in Hafter |- *. rewrite ?Ecur, ?Ecu, ?Elen in Hafter.
           destruct Hafter as [[-> Hoff] | Hb]; right; lia.
      * intros [| i] [| j] q1 q2 n1 n2 Hij Hq1 Hn1 Hq2 Hn2; cbn in Hq1, Hn1, Hq2, Hn2;
          try lia; simplify_eq.
        -- specialize (Hafter _ _ Hq2). destruct q2 as [| b off]; [contradiction |].
           cbn [handed_after disjoint_range] in Hafter |- *.
           rewrite ?Ecur, ?Ecu, ?Elen in Hafter.
           destruct Hafter as [[-> Hoff] | Hb]; [right; left; lia | left; lia].
        -- eapply (Hdis i j); eauto. lia.
Qed.

(** X21: in an arena created with a limit [L > 0], the objects returned by
    a run of allocations that leaves the chunk index below [L] share no
    byte with each other, in whatever state the run starts; and each lies
    in the active chunk at or behind the cursor the run started from, or in
    a chunk provisioned during the run. *)
Theorem allocations_disjoint_below_limit C L m0 a0 m1 k a m f ns ps a' m' :
  0 < L -> in_int64 L -> C <= int64_max ->
  Create C [WithLimit L] m0 = (Ok a0, m1) ->
  steps k a0 m1 a m ->
  Forall in_int64 ns ->
  alloc_many (S f) ns a m = Some (Ok ps, a', m') ->
  chunkCursor a' < L ->
  (forall (i : nat) p, ps !! i = Some p -> handed_after a m p)
  /\ (forall (i j : nat) p q n1 n2,
        (i < j)%nat ->
        ps !! i = Some p -> ns !! i = Some n1 ->
        ps !! j = Some q -> ns !! j = Some n2 ->
        disjoint_range p n1 q n2).
Proof.
  intros HL HL64 HCmax HC Hsteps Hns H Hbelow.
  change [WithLimit L] with (map WithLimit [L]) in HC.
  assert (Hls : Forall in_int64 [L]) by (constructor; [assumption | constructor]).
  assert (Hb : final_limit [L] = 0 -> Z.of_nat k <= int64_max).
  { cbn. lia. }
  destruct (reachable_index _ _ _ _ _ _ _ _ HC Hls Hb Hsteps) as (Hinv & El & Es).
  pose proof (Create_wf _ _ _ _ _ HCmax HC) as Hwf0.
  pose proof (steps_wf _ _ _ _ _ _ Hwf0 Hsteps) as Hwf.
  cbn in El.
  destruct (alloc_many_below_limit (length m0) f ns k a m ps a' m' Hwf Hinv)
    as (_ & Hafter & Hdis); rewrite ?El; auto.
Qed.

Lemma allocations_disjoint_below_limit_witness :
  (forall (i : nat) p,
     [Ptr 0%nat 0; Ptr 1%nat 0; Ptr 2%nat 0] !! i = Some p ->
     handed_after (mkArena 8 3 0 0 0%nat [0%nat]) [replicate 8 zero_byte] p)
  /\ (forall (i j : nat) p q n1 n2,
        (i < j)%nat ->
        [Ptr 0%nat 0; Ptr 1%nat 0; Ptr 2%nat 0] !! i = Some p -> [4; 8; 4] !! i = Some n1 ->
        [Ptr 0%nat 0; Ptr 1%nat 0; Ptr 2%nat 0] !! j = Some q -> [4; 8; 4] !! j = Some n2 ->
        disjoint_range p n1 q n2).
Proof.
  apply (allocations_disjoint_below_limit 8 3 [] (mkArena 8 3 0 0 0%nat [0%nat])
           [replicate 8 zero_byte] 0 (mkArena 8 3 0 0 0%nat [0%nat])
           [replicate 8 zero_byte] 0 [4; 8; 4]
           [Ptr 0%nat 0; Ptr 1%nat 0; Ptr 2%nat 0]
           (mkArena 8 3 4 2 2%nat [0%nat; 1%nat; 2%nat])
           [replicate 8 zero_byte; replicate 8 zero_byte; replicate 8 zero_byte]).
  - lia.
  - vm_compute. split; discriminate.
  - vm_compute. discriminate.
  - reflexivity.
  - apply steps_O.
  - repeat constructor; vm_compute; discriminate.
  - vm_compute. reflexivity.
  - cbn. lia.
Defined.

(** * Further properties: the outcomes of [alloc], and [Create] *)


(** X22: run by a single thread, [alloc] finishes in one pass for every
    size and every state: the compare-and-swap of [resize] cannot fail, so
    the retry is never taken.  It either returns a pointer, which is never
    nil, or panics with one of three faults: the object is too large, the
    limit is reached, or a bounds check of the runtime fails. *)
Theorem alloc_one_pass f n a m :
  alloc (S f) n a m = alloc 1 n a m
  /\ exists o a' m',
       alloc (S f) n a m = Some (o, a', m')
       /\ match o with
          | Ok p => exists b off, p = Ptr b off
          | Panic e => e = ObjectTooLarge \/ e = CapacityExceeded \/ e = RuntimeError
          end.
Proof.
  split; [apply alloc_fuel |].
  destruct (alloc_returns f n a m) as [[[[p | e] a'] m'] E].
  - exists (Ok p), a', m'. split; [exact E |]. eapply alloc_ok_not_null. exact E.
  - exists (Panic e), a', m'. split; [exact E |]. eapply alloc_fault_kind. exact E.
Qed.

(** X23: of several [WithLimit] options given to [Create] only the last
    one counts: the options are applied in order and each overwrites the
    limit. *)
Theorem Create_last_limit_wins C ls L m0 :
  Create C (map WithLimit (ls ++ [L])) m0 = Create C [WithLimit L] m0.
Proof.
  change [WithLimit L] with (map WithLimit [L]).
  destruct (Z.lt_ge_cases C 0) as [Hneg | Hpos].
  - rewrite !Create_negative by assumption. reflexivity.
  - rewrite !Create_eq by assumption. unfold final_limit.
    rewrite foldl_app. reflexivity.
Qed.
